(** * osde2e: log metrics, regular-expression counting, polling and
      configuration resolution

    A shallow embedding of [pkg/config] (the [LogMetric] family of the
    configuration and the struct tags), of the part of Go's [regexp] and
    [unicode/utf8] packages that [LogMetric.HasMatches] runs, of the two
    specs of the Certman operator test with their polling predicates, of
    the [ResourceBuilder] of the accounts management client, and of the
    waiter and the configuration resolver that the specification describes.

    Go's [regexp] package is modelled on a fragment of its patterns; what
    it does with every other pattern is a parameter of [HasMatches], the
    engine, so that what is proved of [HasMatches] holds of every pattern.

    Go's [int] is modelled by [Z]: the code only compares thresholds and
    counts, it never does arithmetic on them, so no wrap-around arises.
    A [[]byte] is a [list byte], a Go [string] a [string]. *)

From stdpp Require Import gmap strings list.
From Stdlib Require Import ZArith Lia Ascii Strings.Byte Sorting.Sorted.

Local Open Scope Z_scope.

(* ===================================================================== *)
(** ** Package unicode/utf8 (Go standard library): DecodeRune             *)
(* ===================================================================== *)

(** [HasMatches] hands the log to Go's [regexp] package, which reads a
    [[]byte] rune by rune.  The decoder is modelled as the library has it:
    bytes and runes are [Z], the masks and shifts are written out. *)
Module utf8.

Definition RuneError : Z := 65533.  (* U+FFFD *)
Definition RuneSelf : Z := 128.     (* 0x80 *)

Definition maskx : Z := 63.  (* 0b00111111 *)
Definition mask2 : Z := 31.  (* 0b00011111 *)
Definition mask3 : Z := 15.  (* 0b00001111 *)
Definition mask4 : Z := 7.   (* 0b00000111 *)
Definition locb : Z := 128.  (* 0b10000000 *)
Definition hicb : Z := 191.  (* 0b10111111 *)

(** Entries of the table [first]. *)
Definition xx : Z := 241. (* 0xF1 invalid: size 1 *)
Definition as_ : Z := 240. (* 0xF0 ASCII: size 1 *)
Definition s1 : Z := 2.   (* 0x02 accept 0, size 2 *)
Definition s2 : Z := 19.  (* 0x13 accept 1, size 3 *)
Definition s3 : Z := 3.   (* 0x03 accept 0, size 3 *)
Definition s4 : Z := 35.  (* 0x23 accept 2, size 3 *)
Definition s5 : Z := 52.  (* 0x34 accept 3, size 4 *)
Definition s6 : Z := 4.   (* 0x04 accept 0, size 4 *)
Definition s7 : Z := 68.  (* 0x44 accept 4, size 4 *)

(** The 256-entry table [first], by ranges of the leading byte. *)
Definition first (p0 : Z) : Z :=
  if p0 <? 128 then as_            (* 0x00-0x7F *)
  else if p0 <? 194 then xx        (* 0x80-0xC1 *)
  else if p0 <? 224 then s1        (* 0xC2-0xDF *)
  else if p0 =? 224 then s2        (* 0xE0 *)
  else if p0 <? 237 then s3        (* 0xE1-0xEC *)
  else if p0 =? 237 then s4        (* 0xED *)
  else if p0 <? 240 then s3        (* 0xEE-0xEF *)
  else if p0 =? 240 then s5        (* 0xF0 *)
  else if p0 <? 244 then s6        (* 0xF1-0xF3 *)
  else if p0 =? 244 then s7        (* 0xF4 *)
  else xx.                         (* 0xF5-0xFF *)

(** The table [acceptRanges]: the bounds of the second byte. *)
Definition acceptRanges (i : Z) : Z * Z :=
  if i =? 0 then (locb, hicb)
  else if i =? 1 then (160, hicb)
  else if i =? 2 then (locb, 159)
  else if i =? 3 then (144, hicb)
  else if i =? 4 then (locb, 143)
  else (0, 0).

(** Conversion to [int32] ([rune]): two's complement wrap-around. *)
Definition int32 (z : Z) : Z := (z + 2147483648) mod 4294967296 - 2147483648.

Definition byteZ (b : byte) : Z := Z.of_N (Byte.to_N b).

(** [func DecodeRune(p []byte) (r rune, size int)] *)
Definition DecodeRune (p : list byte) : Z * nat :=
  match p with
  | [] => (RuneError, 0%nat)
  | b0 :: _ =>
      let n := length p in
      let p0 := byteZ b0 in
      let x := first p0 in
      if x >=? as_ then
        (* mask := rune(x) << 31 >> 31 *)
        let mask := Z.shiftr (int32 (Z.shiftl x 31)) 31 in
        (Z.lor (Z.land p0 (Z.lnot mask)) (Z.land RuneError mask), 1%nat)
      else
        let sz := Z.to_nat (Z.land x 7) in
        let accept := acceptRanges (Z.shiftr x 4) in
        if (n <? sz)%nat then (RuneError, 1%nat)
        else
          let b1 := byteZ (nth 1 p "000"%byte) in
          if (b1 <? fst accept) || (snd accept <? b1) then (RuneError, 1%nat)
          else if (sz <=? 2)%nat then
            (Z.lor (Z.shiftl (Z.land p0 mask2) 6) (Z.land b1 maskx), 2%nat)
          else
            let b2 := byteZ (nth 2 p "000"%byte) in
            if (b2 <? locb) || (hicb <? b2) then (RuneError, 1%nat)
            else if (sz <=? 3)%nat then
              (Z.lor (Z.lor (Z.shiftl (Z.land p0 mask3) 12)
                            (Z.shiftl (Z.land b1 maskx) 6))
                     (Z.land b2 maskx), 3%nat)
            else
              let b3 := byteZ (nth 3 p "000"%byte) in
              if (b3 <? locb) || (hicb <? b3) then (RuneError, 1%nat)
              else
                (Z.lor (Z.lor (Z.lor (Z.shiftl (Z.land p0 mask4) 18)
                                     (Z.shiftl (Z.land b1 maskx) 12))
                              (Z.shiftl (Z.land b2 maskx) 6))
                       (Z.land b3 maskx), 4%nat)
  end.

End utf8.

(* ===================================================================== *)
(** ** Package regexp/syntax (Go standard library): the parser            *)
(* ===================================================================== *)

(** [regexp.MustCompile] parses its argument with [syntax.Parse] under the
    flags [syntax.Perl] and panics when the parser reports an error.  The
    parser is modelled on a fragment of the syntax: ASCII literals, [.],
    grouping with [( )], alternation [|] and the repetitions [*], [+], [?]
    with their non-greedy forms [*?], [+?], [??].  A pattern that uses
    anything else (a backslash, a bracket or a brace, [^], [$], a group that
    starts with [(?], a byte outside ASCII) is reported as
    [OutsideFragment], and so is a [*] or [+] whose operand can match the
    empty string, where the order of the matches depends on how the
    compiled program is run; such patterns are left to the engine of
    [regexp] below.  The parser is the one of the Go releases of the time
    of the repository, which bound neither the depth nor the size of a
    regexp. *)
Module syntax.

(** [type Regexp struct]: the operators of the fragment.  [Sub] of a
    concatenation or alternation is kept as a right-nested pair. *)
Inductive Regexp :=
| OpNoMatch
| OpEmptyMatch
| OpLiteral (c : ascii)
| OpAnyCharNotNL
| OpCapture (sub : Regexp)
| OpStar (greedy : bool) (sub : Regexp)
| OpPlus (greedy : bool) (sub : Regexp)
| OpQuest (greedy : bool) (sub : Regexp)
| OpConcat (sub1 sub2 : Regexp)
| OpAlternate (sub1 sub2 : Regexp).

(** [type ErrorCode string] *)
Inductive ErrorCode :=
| ErrMissingParen
| ErrMissingRepeatArgument
| ErrInvalidRepeatOp
| ErrUnexpectedParen.

Inductive ParseResult :=
| Parsed (re : Regexp)
| SyntaxError (code : ErrorCode)
| OutsideFragment.

(** An entry of the parser's stack: a regexp or one of the pseudo-operators
    [opLeftParen] and [opVerticalBar].  The head of the list is the top. *)
Inductive item :=
| IRe (re : Regexp)
| ILeftParen
| IVerticalBar.

(** Whether a regexp can match the empty string. *)
Fixpoint nullable (re : Regexp) : bool :=
  match re with
  | OpNoMatch => false
  | OpEmptyMatch => true
  | OpLiteral _ => false
  | OpAnyCharNotNL => false
  | OpCapture sub => nullable sub
  | OpStar _ _ => true
  | OpPlus _ sub => nullable sub
  | OpQuest _ _ => true
  | OpConcat sub1 sub2 => nullable sub1 && nullable sub2
  | OpAlternate sub1 sub2 => nullable sub1 || nullable sub2
  end.

(** Whether every [*] and [+] of a regexp has an operand that cannot
    match the empty string. *)
Fixpoint loops_progress (re : Regexp) : bool :=
  match re with
  | OpStar _ sub | OpPlus _ sub => negb (nullable sub) && loops_progress sub
  | OpCapture sub | OpQuest _ sub => loops_progress sub
  | OpConcat sub1 sub2 | OpAlternate sub1 sub2 =>
      loops_progress sub1 && loops_progress sub2
  | OpNoMatch | OpEmptyMatch | OpLiteral _ | OpAnyCharNotNL => true
  end.

(** The scan "down to find pseudo-operator | or (": the regexps above the
    topmost marker, bottom first, and the stack below them. *)
Fixpoint scan_down (stack : list item) (subs : list Regexp)
  : list Regexp * list item :=
  match stack with
  | IRe re :: below => scan_down below (re :: subs)
  | _ => (subs, stack)
  end.

(** [func (p *parser) collapse(subs []*Regexp, op Op) *Regexp] for a
    non-empty [subs]. *)
Fixpoint collapse (op : Regexp -> Regexp -> Regexp) (sub : Regexp)
  (subs : list Regexp) : Regexp :=
  match subs with
  | [] => sub
  | sub' :: subs' => op sub (collapse op sub' subs')
  end.

(** [func (p *parser) concat() *Regexp] *)
Definition concat (stack : list item) : list item :=
  match scan_down stack [] with
  | ([], below) => IRe OpEmptyMatch :: below
  | (sub :: subs, below) => IRe (collapse OpConcat sub subs) :: below
  end.

(** [func (p *parser) alternate() *Regexp] *)
Definition alternate (stack : list item) : list item :=
  match scan_down stack [] with
  | ([], below) => IRe OpNoMatch :: below
  | (sub :: subs, below) => IRe (collapse OpAlternate sub subs) :: below
  end.

(** [func (p *parser) swapVerticalBar() bool] *)
Definition swapVerticalBar (stack : list item) : list item * bool :=
  match stack with
  | re1 :: IVerticalBar :: below => (IVerticalBar :: re1 :: below, true)
  | _ => (stack, false)
  end.

(** [func (p *parser) parseVerticalBar() error] *)
Definition parseVerticalBar (stack : list item) : list item :=
  let (stack', swapped) := swapVerticalBar (concat stack) in
  if swapped then stack' else IVerticalBar :: stack'.

(** The common start of [parseRightParen] and of the end of [parse]:
    [concat], pop a swapped vertical bar, [alternate]. *)
Definition close_alternation (stack : list item) : list item :=
  let (stack', swapped) := swapVerticalBar (concat stack) in
  alternate (if swapped then tl stack' else stack').

(** [func (p *parser) parseRightParen() error] *)
Definition parseRightParen (stack : list item) : ErrorCode + list item :=
  match close_alternation stack with
  | IRe re1 :: ILeftParen :: below => inr (IRe (OpCapture re1) :: below)
  | _ => inl ErrUnexpectedParen
  end.

(** [func (p *parser) repeat(op Op, ...) (string, error)] once the
    optional [?] that makes the operator non-greedy has been read;
    [lastRepeat] tells whether the previous token was a repetition. *)
Definition repeat (op : Regexp -> Regexp) (needs_progress : bool)
  (lastRepeat : bool) (stack : list item) : ParseResult + list item :=
  if lastRepeat then inl (SyntaxError ErrInvalidRepeatOp)
  else
    match stack with
    | IRe sub :: below =>
        if needs_progress && nullable sub then inl OutsideFragment
        else inr (IRe (op sub) :: below)
    | _ => inl (SyntaxError ErrMissingRepeatArgument)
    end.

(** The characters of the full syntax that the fragment leaves out. *)
Definition outside (c : ascii) : bool :=
  (128 <=? Ascii.nat_of_ascii c)%nat
  || existsb (Ascii.eqb c) ["\"; "["; "]"; "{"; "}"; "^"; "$"]%char.

(** The main loop of [parse]: [for] over the text left, [t], with its switch on [t[0]]. *)
Fixpoint parse_loop (t : string) (lastRepeat : bool) (stack : list item)
  : ParseResult :=
  match t with
  | EmptyString =>
      match close_alternation stack with
      | [IRe re] => Parsed re
      | _ => SyntaxError ErrMissingParen
      end
  | String c t' =>
      let rep op needs_progress :=
        match t' with
        | String "?" t'' =>
            match repeat (op false) needs_progress lastRepeat stack with
            | inl r => r
            | inr stack' => parse_loop t'' true stack'
            end
        | _ =>
            match repeat (op true) needs_progress lastRepeat stack with
            | inl r => r
            | inr stack' => parse_loop t' true stack'
            end
        end in
      if Ascii.eqb c "(" then
        match t' with
        | String "?" _ => OutsideFragment
        | _ => parse_loop t' false (ILeftParen :: stack)
        end
      else if Ascii.eqb c "|" then parse_loop t' false (parseVerticalBar stack)
      else if Ascii.eqb c ")" then
        match parseRightParen stack with
        | inl code => SyntaxError code
        | inr stack' => parse_loop t' false stack'
        end
      else if Ascii.eqb c "." then parse_loop t' false (IRe OpAnyCharNotNL :: stack)
      else if Ascii.eqb c "*" then rep OpStar true
      else if Ascii.eqb c "+" then rep OpPlus true
      else if Ascii.eqb c "?" then rep OpQuest false
      else if outside c then OutsideFragment
      else parse_loop t' false (IRe (OpLiteral c) :: stack)
  end.

(** [func Parse(s string, flags Flags)], which returns a [*Regexp] and an
    [error], at [flags = syntax.Perl]. *)
Definition Parse (s : string) : ParseResult := parse_loop s false [].

End syntax.

(* ===================================================================== *)
(** ** Package regexp (Go standard library): execution and FindAll        *)
(* ===================================================================== *)

(** What a call does: it returns or it panics. *)
Inductive Outcome (A : Type) :=
| Returns (a : A)
| Panics.
Arguments Returns {A} a.
Arguments Panics {A}.

Module regexp.
Import utf8 syntax.

Definition endOfText : Z := -1.

(** [func (i *inputBytes) step(pos int) (rune, int)] *)
Definition step (b : list byte) (pos : nat) : Z * nat :=
  match drop pos b with
  | c :: _ =>
      if byteZ c <? RuneSelf then (byteZ c, 1%nat) else DecodeRune (drop pos b)
  | [] => (endOfText, 0%nat)
  end.

(** The loop of a [*] (and of the tail of a [+]): one more round of [body]
    and the loop again, or out of the loop; the greedy form prefers the
    round.  A round that consumes nothing is not repeated (the operand of a
    parsed loop never matches the empty string).  Every round moves
    forward, so [fuel] above the number of bytes left is never used up. *)
Fixpoint loop (body : nat -> list nat) (greedy : bool) (fuel : nat) (pos : nat)
  : list nat :=
  match fuel with
  | O => [pos]
  | S fuel' =>
      let again :=
        flat_map (loop body greedy fuel')
                 (List.filter (fun p => (pos <? p)%nat) (body pos)) in
      if greedy then again ++ [pos] else pos :: again
  end.

(** The matcher: every position at which a match of [re] that starts at
    [pos] can end, in the order in which the backtracker ([backtrack.go])
    and the NFA simulation ([exec.go]) prefer them: the first alternative
    before the second, one more round of a greedy loop before leaving it.
    The match reported for a start is the first of the list. *)
Fixpoint run (b : list byte) (re : syntax.Regexp) (pos : nat) : list nat :=
  match re with
  | OpNoMatch => []
  | OpEmptyMatch => [pos]
  | OpLiteral c =>
      let (r, width) := step b pos in
      if (0 <? width)%nat && (r =? Z.of_nat (Ascii.nat_of_ascii c))
      then [(pos + width)%nat] else []
  | OpAnyCharNotNL =>
      let (r, width) := step b pos in
      if (0 <? width)%nat && negb (r =? 10)
      then [(pos + width)%nat] else []
  | OpCapture sub => run b sub pos
  | OpStar greedy sub => loop (run b sub) greedy (S (length b)) pos
  | OpPlus greedy sub =>
      flat_map (loop (run b sub) greedy (S (length b))) (run b sub pos)
  | OpQuest greedy sub =>
      if greedy then run b sub pos ++ [pos] else pos :: run b sub pos
  | OpConcat sub1 sub2 => flat_map (run b sub2) (run b sub1 pos)
  | OpAlternate sub1 sub2 => run b sub1 pos ++ run b sub2 pos
  end.

(** The unanchored search: the leftmost start at or after [pos], moving
    from rune to rune, at which [re] matches, with the preferred end. *)
Fixpoint search (b : list byte) (re : syntax.Regexp) (fuel : nat) (pos : nat)
  : option (nat * nat) :=
  match run b re pos with
  | e :: _ => Some (pos, e)
  | [] =>
      match fuel with
      | O => None
      | S fuel' =>
          let width := snd (step b pos) in
          if (0 <? width)%nat then search b re fuel' (pos + width) else None
      end
  end.

(** What the machines behind [doExecute] (the backtracker, the NFA
    simulation) report for a regexp of the fragment: the bounds
    [match[0]], [match[1]] of the leftmost match at or after [pos], [None]
    for the nil slice. *)
Definition leftmost (re : syntax.Regexp) (b : list byte) (pos : nat)
  : option (nat * nat) :=
  search b re (length b - pos) pos.

(** The rest of the package.  [regexp] is Go's standard library, not code
    of the repository, and the parser of [syntax] covers a fragment of its
    patterns.  What the package does with every other pattern is a
    parameter: whether [Compile] accepts the pattern ([compile], [None]
    for an error), which match of the compiled pattern [doExecute] reports
    from a position on ([execute], [None] for the nil slice), and, for the
    statements that speak of occurrences, what the compiled pattern matches
    ([matches p b i j]: it matches the text [b] from [i] to [j]). *)
Record Engine := {
  Prog : Type;
  compile : string -> option Prog;
  execute : Prog -> list byte -> nat -> option (nat * nat);
  matches : Prog -> list byte -> nat -> nat -> Prop
}.

(** [type Regexp struct], the compiled regular expression: a regexp of the
    fragment, or a pattern the engine has compiled. *)
Inductive Regexp (E : Engine) :=
| Modelled (re : syntax.Regexp)
| Beyond (p : Prog E).
Arguments Modelled {E} re.
Arguments Beyond {E} p.

(** [func Compile(expr string)], which returns a [*Regexp] and an
    [error]; [None] stands for an error that is not nil. *)
Definition Compile (E : Engine) (expr : string) : option (Regexp E) :=
  match Parse expr with
  | Parsed re => Some (Modelled re)
  | SyntaxError _ => None
  | OutsideFragment =>
      match compile E expr with
      | Some p => Some (Beyond p)
      | None => None
      end
  end.

(** [func MustCompile(str string) *Regexp] *)
Definition MustCompile (E : Engine) (str : string) : Outcome (Regexp E) :=
  match Compile E str with
  | Some regexp => Returns regexp
  | None => Panics
  end.

(** [func (re *Regexp) doExecute(..., b []byte, ..., pos int, ...) []int] *)
Definition doExecute {E : Engine} (re : Regexp E) (b : list byte) (pos : nat)
  : option (nat * nat) :=
  match re with
  | Modelled re => leftmost re b pos
  | Beyond p => execute E p b pos
  end.

(** The [for] loop of [allMatches], with the matches it delivers in order.
    [fuel] bounds the rounds: a round delivers a match and adds one to
    [i], which stays below [n], or it moves [pos] forward, which stays
    at or below the end of the text. *)
Fixpoint allMatches_loop {E : Engine} (re : Regexp E) (b : list byte) (n : Z)
  (fuel : nat) (pos : nat) (i : Z) (prevMatchEnd : Z) : list (nat * nat) :=
  match fuel with
  | O => []
  | S fuel' =>
      let end_ := length b in
      if (i <? n) && (pos <=? end_)%nat then
        match doExecute re b pos with
        | None => []
        | Some (m0, m1) =>
            (* An empty match right after a previous match is ignored. *)
            let accept :=
              negb ((m1 =? pos)%nat && (Z.of_nat m0 =? prevMatchEnd)) in
            let pos' :=
              if (m1 =? pos)%nat then
                let width := snd (step b pos) in
                if (0 <? width)%nat then (pos + width)%nat else (end_ + 1)%nat
              else m1 in
            let rest :=
              allMatches_loop re b n fuel' pos'
                (if accept then i + 1 else i) (Z.of_nat m1) in
            if accept then (m0, m1) :: rest else rest
        end
      else []
  end.

(** [func (re *Regexp) allMatches(s string, b []byte, n int, deliver func([]int))] *)
Definition allMatches {E : Engine} (re : Regexp E) (b : list byte) (n : Z)
  : list (nat * nat) :=
  allMatches_loop re b n ((Z.to_nat n + 1) * (length b + 2)) 0 0 (-1).

(** [b[match[0]:match[1]]] *)
Definition slice (b : list byte) (m : nat * nat) : list byte :=
  take (snd m - fst m) (drop (fst m) b).

(** [func (re *Regexp) FindAll(b []byte, n int) [][]byte] *)
Definition FindAll {E : Engine} (re : Regexp E) (b : list byte) (n : Z)
  : list (list byte) :=
  let n := if n <? 0 then Z.of_nat (length b) + 1 else n in
  map (slice b) (allMatches re b n).

End regexp.

(* ===================================================================== *)
(** ** Occurrences of a regexp in a text                                  *)
(* ===================================================================== *)

(** What it means for a text to contain a number of occurrences of a
    regexp that do not overlap.  None of this is taken from the matcher
    [regexp.run] or from the search. *)
Module Occurrences.
Import syntax regexp.

(** The positions at which a rune of the text starts, from [pos] on, the
    end of the text included: [pos], then rune by rune. *)
Fixpoint starts_from (b : list byte) (fuel : nat) (pos : nat) : list nat :=
  pos ::
  match fuel with
  | O => []
  | S fuel' =>
      let width := snd (step b pos) in
      if (0 <? width)%nat then starts_from b fuel' (pos + width) else []
  end.

Definition starts (b : list byte) (pos : nat) : list nat :=
  starts_from b (length b - pos) pos.

(** A regexp of the fragment matches the text [b] from [i] to [j]: the
    operators read as usual, rune by rune. *)
Inductive Matches (b : list byte) : syntax.Regexp -> nat -> nat -> Prop :=
| MEmptyMatch i : Matches b OpEmptyMatch i i
| MLiteral c i r width :
    step b i = (r, width) -> (0 < width)%nat ->
    r = Z.of_nat (Ascii.nat_of_ascii c) ->
    Matches b (OpLiteral c) i (i + width)
| MAnyCharNotNL i r width :
    step b i = (r, width) -> (0 < width)%nat -> r <> 10 ->
    Matches b OpAnyCharNotNL i (i + width)
| MCapture sub i j : Matches b sub i j -> Matches b (OpCapture sub) i j
| MStarOut greedy sub i : Matches b (OpStar greedy sub) i i
| MStarRound greedy sub i k j :
    Matches b sub i k -> Matches b (OpStar greedy sub) k j ->
    Matches b (OpStar greedy sub) i j
| MPlus greedy sub i k j :
    Matches b sub i k -> Matches b (OpStar greedy sub) k j ->
    Matches b (OpPlus greedy sub) i j
| MQuestNone greedy sub i : Matches b (OpQuest greedy sub) i i
| MQuestOne greedy sub i j :
    Matches b sub i j -> Matches b (OpQuest greedy sub) i j
| MConcat sub1 sub2 i k j :
    Matches b sub1 i k -> Matches b sub2 k j ->
    Matches b (OpConcat sub1 sub2) i j
| MAlternateLeft sub1 sub2 i j :
    Matches b sub1 i j -> Matches b (OpAlternate sub1 sub2) i j
| MAlternateRight sub1 sub2 i j :
    Matches b sub2 i j -> Matches b (OpAlternate sub1 sub2) i j.

(** A compiled regexp matches the text [b] from [i] to [j]. *)
Definition matched {E : Engine} (re : regexp.Regexp E) (b : list byte)
  (i j : nat) : Prop :=
  match re with
  | Modelled re => Matches b re i j
  | Beyond p => matches E p b i j
  end.

(** An occurrence of a compiled regexp in the text: a match that starts
    where a rune of the text starts (or at its end). *)
Definition occurs {E : Engine} (re : regexp.Regexp E) (b : list byte)
  (i j : nat) : Prop :=
  In i (starts b 0) /\ matched re b i j.

(** What the package documents of a search, asked of the engine: the match
    reported is a match, it starts at the leftmost rune at or after [pos]
    at which there is one and ends at the start of a rune; nothing is
    reported only when there is no match from [pos] on. *)
Record Leftmost (E : Engine) : Prop := {
  execute_found : forall p b pos m0 m1,
    (pos <= length b)%nat ->
    execute E p b pos = Some (m0, m1) ->
    In m0 (starts b pos) /\ In m1 (starts b m0) /\ matches E p b m0 m1
    /\ forall i j, In i (starts b pos) -> (i < m0)%nat -> ~ matches E p b i j;
  execute_nothing : forall p b pos,
    (pos <= length b)%nat ->
    execute E p b pos = None ->
    forall i j, In i (starts b pos) -> ~ matches E p b i j
}.

(** Two occurrences, the first to the left, do not overlap: the second
    starts later, not before the first has ended, and, when it is empty,
    not at the very end of the first. *)
Definition apart (o1 o2 : nat * nat) : bool :=
  (fst o1 <? fst o2)%nat && (snd o1 <=? fst o2)%nat
  && negb ((fst o2 =? snd o2)%nat && (snd o1 =? fst o2)%nat).

Fixpoint separated (occs : list (nat * nat)) : bool :=
  match occs with
  | o1 :: rest =>
      match rest with
      | o2 :: _ => apart o1 o2 && separated rest
      | [] => true
      end
  | [] => true
  end.

End Occurrences.

(* ===================================================================== *)
(** ** Package config: LogMetric, LogMetrics                              *)
(* ===================================================================== *)

Module Config.

(** [type LogMetric struct]: the [default] struct tags (9999 and -1) are
    read by the configuration loader only; a composite literal
    [LogMetric{}] has the zero value in every field. *)
Record LogMetric := mkLogMetric {
  Name : string;
  RegEx : string;
  HighThreshold : Z;
  LowThreshold : Z
}.

(** The values of the [default] tags of the two threshold fields. *)
Definition defaultHighThreshold : Z := 9999.
Definition defaultLowThreshold : Z := -1.

(** [LogMetric{}] *)
Definition zeroLogMetric : LogMetric :=
  {| Name := ""; RegEx := ""; HighThreshold := 0; LowThreshold := 0 |}.

(** [type LogMetrics []LogMetric] *)
Definition LogMetrics := list LogMetric.

(** A [*LogMetric]: nil, the address of an element of the slice, or the
    address of a freshly allocated struct. *)
Inductive LogMetricPtr :=
| NilPtr
| ElemPtr (k : nat)
| NewPtr (m : LogMetric).

(** Dereferencing; [None] is the nil-pointer panic (or an index outside the
    slice, which [GetMetricByName] never produces). *)
Definition deref (metrics : LogMetrics) (p : LogMetricPtr) : option LogMetric :=
  match p with
  | NilPtr => None
  | ElemPtr k => metrics !! k
  | NewPtr m => Some m
  end.

(** The loop [for k := range metrics] of [GetMetricByName], started at
    index [k] with [rest] the elements from [k] on. *)
Fixpoint GetMetricByName_loop (rest : list LogMetric) (k : nat) (name : string)
  : LogMetricPtr :=
  match rest with
  | [] => NewPtr zeroLogMetric
  | m :: rest' =>
      if String.eqb name (Name m) then ElemPtr k
      else GetMetricByName_loop rest' (S k) name
  end.

(** [func (metrics LogMetrics) GetMetricByName(name string) *LogMetric] *)
Definition GetMetricByName (metrics : LogMetrics) (name : string) : LogMetricPtr :=
  GetMetricByName_loop metrics 0 name.

(** [func (metric LogMetric) HasMatches(data []byte) int], with the
    engine behind the [regexp] package as [E]. *)
Definition HasMatches (E : regexp.Engine) (metric : LogMetric)
  (data : list byte) : Outcome Z :=
  match regexp.MustCompile E (RegEx metric) with
  | Returns re => Returns (Z.of_nat (length (regexp.FindAll re data (-1))))
  | Panics => Panics
  end.

(** [func (metric LogMetric) IsPassing(value int) bool] *)
Definition IsPassing (metric : LogMetric) (value : Z) : bool :=
  (HighThreshold metric >? value) && (LowThreshold metric <? value).

End Config.

Import Config.

(* ===================================================================== *)
(** ** Package config: the struct tags                                    *)
(* ===================================================================== *)

(** The fields of [Config], of the structs it is made of and of
    [LogMetric], each with its Go type and its [env], [sect], [default]
    and [yaml] struct tags, in the order of the source. *)
Module ConfigTags.

Record Field := mkField {
  structName : string;
  fieldName : string;
  goType : string;
  envTag : option string;
  sectTag : option string;
  defaultTag : option string;
  yamlTag : option string
}.

Definition fields : list Field :=
  [
    mkField "Config" "Upgrade" "UpgradeConfig" (None) (None) (None) (Some "upgrade");
    mkField "Config" "Kubeconfig" "KubeConfig" (None) (None) (None) (Some "kubeconfig");
    mkField "Config" "Tests" "TestConfig" (None) (None) (None) (Some "tests");
    mkField "Config" "Cluster" "ClusterConfig" (None) (None) (None) (Some "cluster");
    mkField "Config" "OCM" "OCMConfig" (None) (None) (None) (Some "ocm");
    mkField "Config" "Addons" "AddonConfig" (None) (None) (None) (Some "addons");
    mkField "Config" "Scale" "ScaleConfig" (None) (None) (None) (Some "scale");
    mkField "Config" "Weather" "WeatherConfig" (None) (None) (None) (Some "weather");
    mkField "Config" "Provider" "string" (Some "PROVIDER") (Some "tests") (Some "ocm") (Some "provider");
    mkField "Config" "JobName" "string" (Some "JOB_NAME") (Some "tests") (None) (Some "jobName");
    mkField "Config" "JobID" "int" (Some "BUILD_NUMBER") (Some "tests") (None) (Some "jobID");
    mkField "Config" "BaseJobURL" "string" (Some "BASE_JOB_URL") (Some "test") (Some "https://storage.googleapis.com/origin-ci-test/logs") (Some "baseJobURL");
    mkField "Config" "ReportDir" "string" (Some "REPORT_DIR") (Some "tests") (Some "__TMP_DIR__") (Some "reportDir");
    mkField "Config" "Suffix" "string" (Some "SUFFIX") (Some "tests") (Some "__RND_3__") (Some "suffix");
    mkField "Config" "DryRun" "bool" (Some "DRY_RUN") (Some "tests") (None) (Some "dryRun");
    mkField "Config" "LogMetrics" "LogMetrics" (None) (None) (None) (Some "logMetrics");
    mkField "LogMetric" "Name" "string" (None) (None) (None) (Some "name");
    mkField "LogMetric" "RegEx" "string" (None) (None) (None) (Some "regex");
    mkField "LogMetric" "HighThreshold" "int" (None) (None) (Some "9999") (Some "highThreshold");
    mkField "LogMetric" "LowThreshold" "int" (None) (None) (Some "-1") (Some "lowThreshold");
    mkField "KubeConfig" "Path" "string" (Some "TEST_KUBECONFIG") (Some "cluster") (None) (Some "path");
    mkField "OCMConfig" "Token" "string" (Some "OCM_TOKEN") (Some "required") (None) (Some "token");
    mkField "OCMConfig" "Env" "string" (Some "OSD_ENV") (Some "environment") (Some "prod") (Some "env");
    mkField "OCMConfig" "Debug" "bool" (Some "DEBUG_OSD") (Some "environment") (Some "false") (Some "debug");
    mkField "OCMConfig" "NumRetries" "int" (Some "NUM_RETRIES") (Some "ocm") (Some "3") (Some "numRetries");
    mkField "UpgradeConfig" "UpgradeToCISIfPossible" "bool" (Some "UPGRADE_TO_CIS_IF_POSSIBLE") (Some "upgrade") (Some "false") (Some "upgradeToCISIfPossible");
    mkField "UpgradeConfig" "OnlyUpgradeToZReleases" "bool" (Some "ONLY_UPGRADE_TO_Z_RELEASES") (Some "upgrade") (Some "false") (Some "onlyUpgradeToZReleases");
    mkField "UpgradeConfig" "NextReleaseAfterProdDefaultForUpgrade" "int" (Some "NEXT_RELEASE_AFTER_PROD_DEFAULT_FOR_UPGRADE") (Some "upgrade") (Some "-1") (Some "nextReleaseAfterProdDefaultForUpgrade");
    mkField "UpgradeConfig" "ReleaseStream" "string" (Some "UPGRADE_RELEASE_STREAM") (Some "upgrade") (None) (Some "releaseStream");
    mkField "ClusterConfig" "MultiAZ" "bool" (Some "MULTI_AZ") (Some "cluster") (Some "false") (Some "multiAZ");
    mkField "ClusterConfig" "DestroyAfterTest" "bool" (Some "DESTROY_CLUSTER") (Some "cluster") (Some "false") (Some "destroyAfterTest");
    mkField "ClusterConfig" "ExpiryInMinutes" "int64" (Some "CLUSTER_EXPIRY_IN_MINUTES") (Some "cluster") (Some "210") (Some "expiryInMinutes");
    mkField "ClusterConfig" "AfterTestWait" "int64" (Some "AFTER_TEST_CLUSTER_WAIT") (Some "environment") (Some "60") (Some "afterTestWait");
    mkField "ClusterConfig" "InstallTimeout" "int64" (Some "CLUSTER_UP_TIMEOUT") (Some "environment") (Some "135") (Some "installTimeout");
    mkField "ClusterConfig" "UseLatestVersionForInstall" "bool" (Some "USE_LATEST_VERSION_FOR_INSTALL") (Some "version") (Some "false") (Some "useLatestVersionForInstall");
    mkField "ClusterConfig" "UseMiddleClusterImageSetForInstall" "bool" (Some "USE_MIDDLE_CLUSTER_IMAGE_SET_FOR_INSTALL") (Some "version") (Some "false") (Some "useMiddleClusterVersionForInstall");
    mkField "ClusterConfig" "UseOldestClusterImageSetForInstall" "bool" (Some "USE_OLDEST_CLUSTER_IMAGE_SET_FOR_INSTALL") (Some "version") (Some "false") (Some "useOldestClusterVersionForInstall");
    mkField "ClusterConfig" "NextReleaseAfterProdDefault" "int" (Some "NEXT_RELEASE_AFTER_PROD_DEFAULT") (Some "version") (Some "-1") (Some "nextReleaseAfterProdDefault");
    mkField "ClusterConfig" "MajorTarget" "int64" (Some "MAJOR_TARGET") (Some "version") (None) (Some "majorTarget");
    mkField "ClusterConfig" "MinorTarget" "int64" (Some "MINOR_TARGET") (Some "version") (None) (Some "minorTarget");
    mkField "ClusterConfig" "CleanCheckRuns" "int" (Some "CLEAN_CHECK_RUNS") (Some "environment") (Some "20") (Some "cleanCheckRuns");
    mkField "AddonConfig" "IDs" "[]string" (Some "ADDON_IDS") (Some "addons") (None) (Some "ids");
    mkField "AddonConfig" "TestHarnesses" "[]string" (Some "ADDON_TEST_HARNESSES") (Some "addons") (None) (Some "testHarnesses");
    mkField "ScaleConfig" "WorkloadsRepository" "string" (Some "WORKLOADS_REPO") (Some "scale") (Some "https://github.com/openshift-scale/workloads") (Some "workloadsRepository");
    mkField "ScaleConfig" "WorkloadsRepositoryBranch" "string" (Some "WORKLOADS_REPO_BRANCH") (Some "scale") (Some "master") (Some "workloadsRepositoryBranch");
    mkField "ScaleConfig" "PbenchServer" "string" (Some "PBENCH_SERVER") (Some "scale") (Some "pbench.dev.openshift.com") (Some "pbenchServer");
    mkField "ScaleConfig" "PbenchSSHPrivateKey" "string" (Some "PBENCH_SSH_PRIVATE_KEY") (Some "scale") (None) (Some "pbenchSSHPrivateKey");
    mkField "ScaleConfig" "PbenchSSHPublicKey" "string" (Some "PBENCH_SSH_PUBLIC_KEY") (Some "scale") (None) (Some "pbenchSSHPublicKey");
    mkField "TestConfig" "PollingTimeout" "int64" (Some "POLLING_TIMEOUT") (Some "tests") (Some "30") (Some "pollingTimeout");
    mkField "TestConfig" "GinkgoSkip" "string" (Some "GINKGO_SKIP") (Some "tests") (None) (Some "ginkgoSkip");
    mkField "TestConfig" "GinkgoFocus" "string" (Some "GINKGO_FOCUS") (Some "tests") (None) (Some "focus");
    mkField "TestConfig" "TestsToRun" "[]string" (Some "TESTS_TO_RUN") (Some "tests") (None) (Some "testsToRun");
    mkField "TestConfig" "SuppressSkipNotifications" "bool" (Some "SUPPRESS_SKIP_NOTIFICATIONS") (Some "tests") (Some "true") (Some "suppressSkipNotifications");
    mkField "TestConfig" "CleanRuns" "int" (Some "CLEAN_RUNS") (Some "tests") (None) (Some "cleanRuns");
    mkField "TestConfig" "OperatorSkip" "string" (Some "OPERATOR_SKIP") (Some "tests") (Some "insights") (Some "ginkgoFocus");
    mkField "TestConfig" "SkipClusterHealthChecks" "bool" (Some "SKIP_CLUSTER_HEALTH_CHECKS") (Some "tests") (Some "false") (Some "skipClusterHealthChecks");
    mkField "TestConfig" "UploadMetrics" "bool" (Some "UPLOAD_METRICS") (Some "metrics") (Some "false") (Some "uploadMetrics");
    mkField "TestConfig" "MetricsBucket" "string" (Some "METRICS_BUCKET") (Some "metrics") (Some "osde2e-metrics") (Some "metricsBucket");
    mkField "TestConfig" "ServiceAccount" "string" (Some "SERVICE_ACCOUNT") (Some "tests") (None) (Some "serviceAccount");
    mkField "WeatherConfig" "PrometheusAddress" "string" (Some "PROMETHEUS_ADDRESS") (Some "weather") (None) (Some "address");
    mkField "WeatherConfig" "PrometheusBearerToken" "string" (Some "PROMETHEUS_BEARER_TOKEN") (Some "weather") (None) (Some "bearerToken");
    mkField "WeatherConfig" "StartOfTimeWindowInHours" "time.Duration" (Some "START_OF_TIME_WINDOW_IN_HOURS") (Some "weather") (Some "24") (Some "startOfTimeWindowInHours");
    mkField "WeatherConfig" "NumberOfSamplesNecessary" "int" (Some "NUMBER_OF_SAMPLES_NECESSARY") (Some "weather") (Some "3") (Some "numberOfSamplesNecessary");
    mkField "WeatherConfig" "SlackWebhook" "string" (Some "SLACK_WEBHOOK") (Some "weather") (None) (Some "slackWebhook");
    mkField "WeatherConfig" "JobWhitelist" "[]string" (Some "JOB_WHITELIST") (Some "weather") (Some "osde2e-.*-aws-e2e-.*") (Some "jobWhitelist")
  ].

(** The environment variables the fields are bound to. *)
Definition envVars : list string := omap envTag fields.

(** The YAML keys, each with the struct it belongs to. *)
Definition yamlKeys : list (string * option string) :=
  map (fun f => (structName f, yamlTag f)) fields.

End ConfigTags.

(* ===================================================================== *)
(** ** Package operators: the polling predicate of the Certman test       *)
(* ===================================================================== *)

Module operators.

(** [error]: an error value, told apart by its message. *)
Definition error := string.

(** [v1.Secret] and [v1.SecretList], as far as the test reads them. *)
Record Secret := { SecretName : string }.
Record SecretList := { Items : list Secret }.

(** The cluster is an external collaborator: what
    [h.Kube().CoreV1().Secrets("openshift-config").List(listOpts)] answers
    at its [n]-th call (counted from 0) is given by a script. *)
Definition Script := nat -> SecretList * option error.

(** The variables the closure captures ([secretName], [secrets], [err])
    and the number of calls made to the cluster so far. *)
Record Vars := {
  secretName : string;
  secrets : option SecretList;
  err : option error;
  listCalls : nat
}.

Definition initVars : Vars :=
  {| secretName := EmptyString; secrets := None; err := None; listCalls := 0 |}.

(** The condition function handed to [wait.PollImmediate] by
    "certificate secret exist under openshift-config namespace". *)
Definition secretExists (api : Script) (v : Vars) : (bool * option error) * Vars :=
  let (list, e) := api (listCalls v) in
  (* secrets, err = ...List(listOpts) *)
  let v1 := {| secretName := secretName v; secrets := Some list; err := e;
               listCalls := S (listCalls v) |} in
  match e with
  | Some e' => ((false, Some e'), v1)
  | None =>
      match Items list with
      | [] => ((false, None), v1)
      | first :: _ =>
          ((true, None),
           {| secretName := SecretName first; secrets := Some list; err := None;
              listCalls := S (listCalls v) |})
      end
  end.

End operators.

(* ===================================================================== *)
(** ** Package operators: the second predicate and the expectations       *)
(* ===================================================================== *)

Module certman.
Import operators.

(** [osv1.APIServer], as far as the test reads it:
    [apiserver.Spec.ServingCerts.NamedCertificates] and, of each, the
    [ServingCertificate.Name]. *)
Record NamedCertificate := { ServingCertificateName : string }.
Record APIServer := { NamedCertificates : list NamedCertificate }.

(** What [h.Cfg().ConfigV1().APIServers().Get("cluster", getOpts)] answers
    at its [n]-th call. *)
Definition GetScript := nat -> APIServer * option error.

(** The variables of the [Context] that both specs share ([secretName],
    [secrets], [err] in [vars]) with [apiserver] and the number of calls to
    [Get]. *)
Record Shared := {
  vars : Vars;
  apiserver : option APIServer;
  getCalls : nat
}.

(** The condition function of "certificate secret should be applied to
    apiserver object". *)
Definition certificateApplied (api : GetScript) (s : Shared)
  : (bool * option error) * Shared :=
  let (server, e) := api (getCalls s) in
  (* apiserver, err = ...Get("cluster", getOpts) *)
  let s1 := {| vars := {| secretName := secretName (vars s);
                          secrets := secrets (vars s);
                          err := e;
                          listCalls := listCalls (vars s) |};
               apiserver := Some server;
               getCalls := S (getCalls s) |} in
  match e with
  | Some e' => ((false, Some e'), s1)
  | None =>
      match NamedCertificates server with
      | [] => ((false, None), s1)
      | _ :: _ => ((true, None), s1)
      end
  end.

(** How a spec ends: all its expectations hold, or the expectation at a
    line of the source fails (and ends the spec), or a nil pointer is
    dereferenced. *)
Inductive Verdict :=
| Pass
| FailAt (line : nat)
| NilDereference.

(** The expectations of the first spec, lines 39 and 40:
    [Expect(err).NotTo(HaveOccurred())] and
    [Expect(len(secrets.Items)).Should(Equal(1))]. *)
Definition secretExpectations (v : Vars) : Verdict :=
  match err v with
  | Some _ => FailAt 39
  | None =>
      match secrets v with
      | None => NilDereference
      | Some list =>
          if (length (Items list) =? 1)%nat then Pass else FailAt 40
      end
  end.

(** The expectations of the second spec, lines 55 to 57. *)
Definition apiserverExpectations (s : Shared) : Verdict :=
  match err (vars s) with
  | Some _ => FailAt 55
  | None =>
      match apiserver s with
      | None => NilDereference
      | Some server =>
          match NamedCertificates server with
          | [certificate] =>
              if String.eqb (ServingCertificateName certificate)
                            (secretName (vars s))
              then Pass else FailAt 57
          | _ => FailAt 56
          end
      end
  end.

End certman.

(* ===================================================================== *)
(** ** The Poll-Until-Ready waiter                                        *)
(* ===================================================================== *)

Module Waiter.
Import operators.

(** Modelled from the spec: a predicate (PollCondition), a piece of code
    run against the state [St] of its collaborators: it answers
    [(done, err)] and leaves a new state. *)
Definition Predicate (St : Type) := St -> (bool * option error) * St.

(** Modelled from the spec: the error of a wait: the predicate's own
    error, handed on verbatim, or the waiter's timeout. *)
Inductive WaitError :=
| PredicateError (e : error)
| TimedOut.

(** Modelled from the spec: what a wait leaves behind: the pair
    [(succeeded, err)], the number of times the predicate was invoked, the
    time of the last check and the final state. *)
Record WaitResult (St : Type) := {
  succeeded : bool;
  waitErr : option WaitError;
  invocations : nat;
  elapsed : Z;
  final : St
}.
Arguments succeeded {St} _.
Arguments waitErr {St} _.
Arguments invocations {St} _.
Arguments elapsed {St} _.
Arguments final {St} _.

(** Modelled from the spec: the retry loop of [WaitUntil]; missing is the
    body of [wait.PollImmediate] (k8s.io/apimachinery/pkg/util/wait), a
    vendored package.  The predicate is checked at once; [(true, nil)] ends
    the wait with success and an error ends it with that error; otherwise
    the next check comes one [interval] later, unless that would be after
    [timeout]: then the wait times out.  [retries] is the number of further
    checks that fit, [now] the time of this check and [calls] the number of
    invocations before it. *)
Fixpoint WaitUntil_loop {St : Type} (retries : nat) (interval : Z)
  (predicate : Predicate St) (now : Z) (calls : nat) (s : St) : WaitResult St :=
  let '((done, e), s') := predicate s in
  match e with
  | Some e' =>
      {| succeeded := false; waitErr := Some (PredicateError e');
         invocations := S calls; elapsed := now; final := s' |}
  | None =>
      if done then
        {| succeeded := true; waitErr := None;
           invocations := S calls; elapsed := now; final := s' |}
      else
        match retries with
        | O =>
            {| succeeded := false; waitErr := Some TimedOut;
               invocations := S calls; elapsed := now; final := s' |}
        | S retries' =>
            WaitUntil_loop retries' interval predicate (now + interval) (S calls) s'
        end
  end.

(** Modelled from the spec: [WaitUntil(interval, timeout, predicate)], see
    [WaitUntil_loop].  The checks fall at the times [0], [interval],
    [2 * interval], ... up to [timeout]; an interval that is not positive
    is outside the contract and gets the immediate check only. *)
Definition WaitUntil {St : Type} (interval timeout : Z) (predicate : Predicate St)
  (s : St) : WaitResult St :=
  WaitUntil_loop (Z.to_nat (timeout / interval)) interval predicate 0 0 s.

End Waiter.

(* ===================================================================== *)
(** ** The Config Resolver                                                *)
(* ===================================================================== *)

Module Resolver.

(** Modelled from the spec: the types a leaf field of the configuration
    can have, and their values. *)
Inductive FieldType := TString | TInteger | TBoolean | TDuration | TStringList.

Inductive Value :=
| VString (s : string)
| VInteger (z : Z)
| VBoolean (b : bool)
| VDuration (z : Z)
| VStringList (l : list string).

(** Modelled from the spec: the zero value of a type. *)
Definition zeroValue (t : FieldType) : Value :=
  match t with
  | TString => VString EmptyString
  | TInteger => VInteger 0
  | TBoolean => VBoolean false
  | TDuration => VDuration 0
  | TStringList => VStringList []
  end.

(** Modelled from the spec: the built-in default of a field.  The
    [default] tags of [Config] are texts, and two of them do not write a
    value but name one that is made when the configuration is resolved:
    [__TMP_DIR__] (the tag of [ReportDir]), a temporary directory, and
    [__RND_3__] (the tag of [Suffix]), three random characters.  The
    loader that reads the tags is missing from the sources, and the spec
    speaks of the built-in default without telling the two kinds apart. *)
Inductive Default :=
| Literal (v : Value)
| TmpDir
| Rnd (n : nat).



(** Modelled from the spec: a field descriptor, the row of the declarative
    table that stands for the struct tags ([env], [yaml], [default]) of
    [Config]; missing is the loader that reads the tags.  [parser] reads
    the raw text of an environment variable at the declared type. *)
Record FieldDescriptor := {
  fieldName : string;
  envVar : string;
  yamlPath : string;
  defaultValue : option Default;
  required : bool;
  fieldType : FieldType;
  parser : string -> option Value
}.


(** Modelled from the spec: the errors of the resolver. *)
Inductive ConfigError :=
| MissingRequiredField (fields : list string)
| InvalidFieldType (field : string) (raw : string).

(** Modelled from the spec: what resolution can reach of the process and
    of the machine beside its inputs: a state, the making of a temporary
    directory, which returns its path, and the drawing of a number of
    random characters.  The spec names none of this (it says that
    resolution has no side effect); the defaults [__TMP_DIR__] and
    [__RND_3__] of the tags call for it, and what the system makes is left
    as a parameter. *)
Record System := {
  State : Type;
  makeTempDir : State -> string * State;
  randomString : nat -> State -> string * State
}.

(** Modelled from the spec: the world the resolver runs in: its inputs,
    which are the environment variables and the optional YAML document (by
    path), and the state of the system. *)
Record World (Sys : System) := mkWorld {
  environ : gmap string string;
  yamlDoc : option (gmap string Value);
  system : State Sys
}.
Arguments environ {Sys} _.
Arguments yamlDoc {Sys} _.
Arguments system {Sys} _.

Section Resolution.
Context {Sys : System}.

(** Modelled from the spec: the value the document, when there is one,
    gives at a path. *)
Definition documented (w : World Sys) (path : string) : option Value :=
  yamlDoc w ≫= (.!! path).

(** Modelled from the spec: a computation over the world, with the monad
    operations behind stdpp's [x ← m; k] and [mret]; reading a variable of
    the environment and a path of the document, making a temporary
    directory and drawing random characters. *)
Definition M (A : Type) : Type := World Sys -> A * World Sys.

#[export] Instance M_ret : MRet M := fun A (a : A) (w : World Sys) => (a, w).
#[export] Instance M_bind : MBind M :=
  fun A B (k : A -> M B) (m : M A) (w : World Sys) => let (a, w') := m w in k a w'.

Definition getenv (name : string) : M (option string) :=
  fun w => (environ w !! name, w).
Definition yamlLookup (path : string) : M (option Value) :=
  fun w => (documented w path, w).
Definition tempDir : M string :=
  fun w =>
    let (dir, s) := makeTempDir Sys (system w) in
    (dir, {| environ := environ w; yamlDoc := yamlDoc w; system := s |}).
Definition random (n : nat) : M string :=
  fun w =>
    let (chars, s) := randomString Sys n (system w) in
    (chars, {| environ := environ w; yamlDoc := yamlDoc w; system := s |}).

(** Modelled from the spec: what the sources of one field give. *)
Inductive FieldResult :=
| Resolved (v : Value)
| Unset
| Invalid (raw : string).

(** Modelled from the spec: the precedence of one field: explicit YAML
    value, else environment variable parsed at the declared type, else
    built-in default, else the zero value when the field is not
    required. *)
Definition resolveField (d : FieldDescriptor) : M FieldResult :=
  y ← yamlLookup (yamlPath d);
  match y with
  | Some v => mret (Resolved v)
  | None =>
      e ← getenv (envVar d);
      match e with
      | Some raw =>
          match parser d raw with
          | Some v => mret (Resolved v)
          | None => mret (Invalid raw)
          end
      | None =>
          match defaultValue d with
          | Some (Literal v) => mret (Resolved v)
          | Some TmpDir => dir ← tempDir; mret (Resolved (VString dir))
          | Some (Rnd n) => chars ← random n; mret (Resolved (VString chars))
          | None =>
              if required d then mret Unset
              else mret (Resolved (zeroValue (fieldType d)))
          end
      end
  end.

(** Modelled from the spec: the fields resolved so far, the required
    fields found unset, and the first field whose environment variable did
    not parse; the descriptors are gone through in order. *)
Record Progress := {
  values : gmap string Value;
  missing : list string;
  invalid : option (string * string)
}.

Definition record (d : FieldDescriptor) (r : FieldResult) (p : Progress) : Progress :=
  match r with
  | Resolved v =>
      {| values := <[fieldName d := v]> (values p); missing := missing p;
         invalid := invalid p |}
  | Unset =>
      {| values := values p; missing := missing p ++ [fieldName d];
         invalid := invalid p |}
  | Invalid raw =>
      {| values := values p; missing := missing p;
         invalid := match invalid p with
                    | Some i => Some i
                    | None => Some (fieldName d, raw)
                    end |}
  end.

Fixpoint resolveFields (ds : list FieldDescriptor) (p : Progress) : M Progress :=
  match ds with
  | [] => mret p
  | d :: ds' =>
      r ← resolveField d;
      resolveFields ds' (record d r p)
  end.

(** Modelled from the spec: the resolver: a fully populated configuration,
    or [InvalidFieldType] for a value that does not parse, or
    [MissingRequiredField] naming every unset required field at once. *)
Definition resolve (ds : list FieldDescriptor) : M (ConfigError + gmap string Value) :=
  p ← resolveFields ds {| values := ∅; missing := []; invalid := None |};
  match invalid p with
  | Some (f, raw) => mret (inl (InvalidFieldType f raw))
  | None =>
      match missing p with
      | [] => mret (inr (values p))
      | fs => mret (inl (MissingRequiredField fs))
      end
  end.



End Resolution.

End Resolver.

(* ===================================================================== *)
(** ** Package accountsmgmt/v1: ResourceBuilder                           *)
(* ===================================================================== *)

(** The builder hands out addresses: [&value] in a setter, [new] in
    [NewResource] and [Build], and [Build] and [Copy] copy pointers, so a
    builder and the objects built from it share what they point to.  The
    store keeps the variables whose address was taken, the builders and the
    objects; a pointer is [None] for nil or the address of an entry. *)
Module accountsmgmt.

Definition ptr := option positive.

(** A variable whose address a setter takes: the [string] or [int]
    parameter [value]. *)
Inductive cell :=
| StringCell (s : string)
| IntCell (z : Z).

(** [type ResourceBuilder struct] *)
Module ResourceBuilder.
Record t := mk {
  id : ptr;
  href : ptr;
  link : bool;
  allowed : ptr;
  resourceName : ptr;
  resourceType : ptr
}.
End ResourceBuilder.

(** [type Resource struct], declared in another file of the package: its
    fields as [Copy] and [Build] read and write them. *)
Module Resource.
Record t := mk {
  id : ptr;
  href : ptr;
  link : bool;
  allowed : ptr;
  resourceName : ptr;
  resourceType : ptr
}.
End Resource.

Record Store := mkStore {
  cells : gmap positive cell;
  builders : gmap positive ResourceBuilder.t;
  objects : gmap positive Resource.t
}.

(** A call: it panics ([None], a nil pointer dereference) or returns with a
    new store. *)
Definition M (A : Type) : Type := Store -> option (A * Store).

#[export] Instance M_ret : MRet M := fun A (a : A) (st : Store) => Some (a, st).
#[export] Instance M_bind : MBind M :=
  fun A B (k : A -> M B) (m : M A) (st : Store) =>
    match m st with
    | Some (a, st') => k a st'
    | None => None
    end.

(** [*b] read and written. *)
Definition load (b : ptr) : M ResourceBuilder.t :=
  fun st =>
    match b with
    | Some pb =>
        match builders st !! pb with
        | Some r => Some (r, st)
        | None => None
        end
    | None => None
    end.

Definition store (b : ptr) (r : ResourceBuilder.t) : M unit :=
  fun st =>
    match b with
    | Some pb =>
        Some (tt, {| cells := cells st;
                     builders := <[pb := r]> (builders st);
                     objects := objects st |})
    | None => None
    end.

(** [&value]: the parameter moves to a fresh variable of the store. *)
Definition addressOf (value : cell) : M ptr :=
  fun st =>
    let l := fresh (dom (cells st)) in
    Some (Some l, {| cells := <[l := value]> (cells st);
                     builders := builders st;
                     objects := objects st |}).

(** [*object] read, and [new(Resource)] filled in. *)
Definition loadObject (object : ptr) : M Resource.t :=
  fun st =>
    match object with
    | Some po =>
        match objects st !! po with
        | Some r => Some (r, st)
        | None => None
        end
    | None => None
    end.

Definition newObject (r : Resource.t) : M ptr :=
  fun st =>
    let po := fresh (dom (objects st)) in
    Some (Some po, {| cells := cells st;
                      builders := builders st;
                      objects := <[po := r]> (objects st) |}).

(** [func NewResource() *ResourceBuilder] *)
Definition NewResource : M ptr :=
  fun st =>
    let pb := fresh (dom (builders st)) in
    Some (Some pb,
          {| cells := cells st;
             builders :=
               <[pb := ResourceBuilder.mk None None false None None None]>
                 (builders st);
             objects := objects st |}).

(** [func (b *ResourceBuilder) ID(value string) *ResourceBuilder] *)
Definition ID (b : ptr) (value : string) : M ptr :=
  p ← addressOf (StringCell value);
  r ← load b;
  _ ← store b (ResourceBuilder.mk p (ResourceBuilder.href r)
                 (ResourceBuilder.link r) (ResourceBuilder.allowed r)
                 (ResourceBuilder.resourceName r) (ResourceBuilder.resourceType r));
  mret b.

(** [func (b *ResourceBuilder) HREF(value string) *ResourceBuilder] *)
Definition HREF (b : ptr) (value : string) : M ptr :=
  p ← addressOf (StringCell value);
  r ← load b;
  _ ← store b (ResourceBuilder.mk (ResourceBuilder.id r) p
                 (ResourceBuilder.link r) (ResourceBuilder.allowed r)
                 (ResourceBuilder.resourceName r) (ResourceBuilder.resourceType r));
  mret b.

(** [func (b *ResourceBuilder) Link(value bool) *ResourceBuilder] *)
Definition Link (b : ptr) (value : bool) : M ptr :=
  r ← load b;
  _ ← store b (ResourceBuilder.mk (ResourceBuilder.id r) (ResourceBuilder.href r)
                 value (ResourceBuilder.allowed r)
                 (ResourceBuilder.resourceName r) (ResourceBuilder.resourceType r));
  mret b.

(** [func (b *ResourceBuilder) Allowed(value int) *ResourceBuilder] *)
Definition Allowed (b : ptr) (value : Z) : M ptr :=
  p ← addressOf (IntCell value);
  r ← load b;
  _ ← store b (ResourceBuilder.mk (ResourceBuilder.id r) (ResourceBuilder.href r)
                 (ResourceBuilder.link r) p
                 (ResourceBuilder.resourceName r) (ResourceBuilder.resourceType r));
  mret b.

(** [func (b *ResourceBuilder) ResourceName(value string) *ResourceBuilder] *)
Definition ResourceName (b : ptr) (value : string) : M ptr :=
  p ← addressOf (StringCell value);
  r ← load b;
  _ ← store b (ResourceBuilder.mk (ResourceBuilder.id r) (ResourceBuilder.href r)
                 (ResourceBuilder.link r) (ResourceBuilder.allowed r)
                 p (ResourceBuilder.resourceType r));
  mret b.

(** [func (b *ResourceBuilder) ResourceType(value string) *ResourceBuilder] *)
Definition ResourceType (b : ptr) (value : string) : M ptr :=
  p ← addressOf (StringCell value);
  r ← load b;
  _ ← store b (ResourceBuilder.mk (ResourceBuilder.id r) (ResourceBuilder.href r)
                 (ResourceBuilder.link r) (ResourceBuilder.allowed r)
                 (ResourceBuilder.resourceName r) p);
  mret b.

(** [func (b *ResourceBuilder) Copy(object *Resource) *ResourceBuilder] *)
Definition Copy (b : ptr) (object : ptr) : M ptr :=
  match object with
  | None => mret b
  | Some _ =>
      o ← loadObject object;
      _ ← load b;
      _ ← store b (ResourceBuilder.mk (Resource.id o) (Resource.href o)
                     (Resource.link o) (Resource.allowed o)
                     (Resource.resourceName o) (Resource.resourceType o));
      mret b
  end.

(** [func (b *ResourceBuilder) Build() (object *Resource, err error)]: the
    object is first the zero value of [new(Resource)]; the three guarded
    assignments leave its field nil when the builder's is. *)
Definition Build (b : ptr) : M (ptr * option string) :=
  r ← load b;
  object ← newObject
    (Resource.mk (ResourceBuilder.id r) (ResourceBuilder.href r)
       (ResourceBuilder.link r)
       (match ResourceBuilder.allowed r with
        | Some l => Some l
        | None => None
        end)
       (match ResourceBuilder.resourceName r with
        | Some l => Some l
        | None => None
        end)
       (match ResourceBuilder.resourceType r with
        | Some l => Some l
        | None => None
        end));
  mret (object, None).

(** A call of one of the six setters, and a chain of such calls
    [b.ID(..).Link(..)...], each made on the pointer the one before
    returned. *)
Inductive call :=
| CallID (value : string)
| CallHREF (value : string)
| CallLink (value : bool)
| CallAllowed (value : Z)
| CallResourceName (value : string)
| CallResourceType (value : string).

Definition invoke (b : ptr) (c : call) : M ptr :=
  match c with
  | CallID value => ID b value
  | CallHREF value => HREF b value
  | CallLink value => Link b value
  | CallAllowed value => Allowed b value
  | CallResourceName value => ResourceName b value
  | CallResourceType value => ResourceType b value
  end.

Fixpoint chain (b : ptr) (calls : list call) : M ptr :=
  match calls with
  | [] => mret b
  | c :: calls' => b' ← invoke b c; chain b' calls'
  end.

(** What an object says when its pointers are followed: each attribute
    with its value, or unset. *)
Record Attributes := mkAttributes {
  attrID : option string;
  attrHREF : option string;
  attrLink : bool;
  attrAllowed : option Z;
  attrResourceName : option string;
  attrResourceType : option string
}.

Definition stringAt (st : Store) (p : ptr) : option string :=
  match p with
  | Some l =>
      match cells st !! l with
      | Some (StringCell s) => Some s
      | _ => None
      end
  | None => None
  end.

Definition intAt (st : Store) (p : ptr) : option Z :=
  match p with
  | Some l =>
      match cells st !! l with
      | Some (IntCell z) => Some z
      | _ => None
      end
  | None => None
  end.

Definition attributes (st : Store) (o : Resource.t) : Attributes :=
  {| attrID := stringAt st (Resource.id o);
     attrHREF := stringAt st (Resource.href o);
     attrLink := Resource.link o;
     attrAllowed := intAt st (Resource.allowed o);
     attrResourceName := stringAt st (Resource.resourceName o);
     attrResourceType := stringAt st (Resource.resourceType o) |}.

(** The attributes after a setter call, as its comment says: the one
    attribute is set to the given value. *)
Definition setAttribute (a : Attributes) (c : call) : Attributes :=
  match c with
  | CallID value =>
      mkAttributes (Some value) (attrHREF a) (attrLink a) (attrAllowed a)
        (attrResourceName a) (attrResourceType a)
  | CallHREF value =>
      mkAttributes (attrID a) (Some value) (attrLink a) (attrAllowed a)
        (attrResourceName a) (attrResourceType a)
  | CallLink value =>
      mkAttributes (attrID a) (attrHREF a) value (attrAllowed a)
        (attrResourceName a) (attrResourceType a)
  | CallAllowed value =>
      mkAttributes (attrID a) (attrHREF a) (attrLink a) (Some value)
        (attrResourceName a) (attrResourceType a)
  | CallResourceName value =>
      mkAttributes (attrID a) (attrHREF a) (attrLink a) (attrAllowed a)
        (Some value) (attrResourceType a)
  | CallResourceType value =>
      mkAttributes (attrID a) (attrHREF a) (attrLink a) (attrAllowed a)
        (attrResourceName a) (Some value)
  end.

Definition noAttributes : Attributes :=
  mkAttributes None None false None None None.

(** An object whose pointers all lead to a variable of the right type. *)
Definition validString (st : Store) (p : ptr) : Prop :=
  p = None \/ exists s, stringAt st p = Some s.
Definition validInt (st : Store) (p : ptr) : Prop :=
  p = None \/ exists z, intAt st p = Some z.

Definition validObject (st : Store) (o : Resource.t) : Prop :=
  validString st (Resource.id o) /\ validString st (Resource.href o)
  /\ validInt st (Resource.allowed o)
  /\ validString st (Resource.resourceName o)
  /\ validString st (Resource.resourceType o).

(** The fields of a builder, read as those of an object. *)
Definition asObject (r : ResourceBuilder.t) : Resource.t :=
  Resource.mk (ResourceBuilder.id r) (ResourceBuilder.href r)
    (ResourceBuilder.link r) (ResourceBuilder.allowed r)
    (ResourceBuilder.resourceName r) (ResourceBuilder.resourceType r).

Definition emptyStore : Store := {| cells := ∅; builders := ∅; objects := ∅ |}.

End accountsmgmt.

(* ===================================================================== *)
(** ** Scenarios                                                          *)
(* ===================================================================== *)

(** Collaborators and inputs on which the definitions above are run. *)
Module Scenarios.

(** The cluster refuses every call. *)
Definition refusing : operators.Script :=
  fun _ => ({| operators.Items := [] |}, Some "connection refused"%string).

(** The cluster answers every call with an empty list of secrets. *)
Definition no_secret_yet : operators.Script :=
  fun _ => ({| operators.Items := [] |}, None).

(** The secret is there from the fourth call on. *)
Definition secret_at_fourth : operators.Script :=
  fun n =>
    if (n <? 3)%nat then ({| operators.Items := [] |}, None)
    else ({| operators.Items := [ {| operators.SecretName := "cert" |} ] |}, None).

(** Two fields of [Config] as descriptors: [Provider] (default [ocm]) and
    [JobName] (no default), both strings. *)
Definition providerField : Resolver.FieldDescriptor :=
  {| Resolver.fieldName := "Provider"; Resolver.envVar := "PROVIDER";
     Resolver.yamlPath := "provider";
     Resolver.defaultValue := Some (Resolver.Literal (Resolver.VString "ocm"));
     Resolver.required := false; Resolver.fieldType := Resolver.TString;
     Resolver.parser := fun raw => Some (Resolver.VString raw) |}.

Definition jobNameField : Resolver.FieldDescriptor :=
  {| Resolver.fieldName := "JobName"; Resolver.envVar := "JOB_NAME";
     Resolver.yamlPath := "jobName";
     Resolver.defaultValue := None;
     Resolver.required := true; Resolver.fieldType := Resolver.TString;
     Resolver.parser := fun raw => Some (Resolver.VString raw) |}.




(** A system that numbers what it makes: the state counts the calls, the
    [k]-th temporary directory and the [k]-th drawing are made of the
    [k]-th letter. *)
Definition letter (k : nat) : ascii := Ascii.ascii_of_nat (97 + k mod 26).

Fixpoint letters (n : nat) (c : ascii) : string :=
  match n with
  | O => EmptyString
  | S n' => String c (letters n' c)
  end.

Definition counting : Resolver.System :=
  {| Resolver.State := nat;
     Resolver.makeTempDir := fun k => (String.append "/tmp/" (letters 1 (letter k)), S k);
     Resolver.randomString := fun n k => (letters n (letter k), S k) |}.

(** A process with [JOB_NAME=nightly] and no YAML document, on a system
    that has made [made] things so far. *)
Definition nightly (made : nat) : Resolver.World counting :=
  Resolver.mkWorld counting {[ "JOB_NAME"%string := "nightly"%string ]} None made.


(** A store with one object, whose id points to a variable holding
    [kept]. *)
Definition keptResource : accountsmgmt.Resource.t :=
  accountsmgmt.Resource.mk (Some 1%positive) None false None None None.

Definition oneResource : accountsmgmt.Store :=
  accountsmgmt.mkStore {[ 1%positive := accountsmgmt.StringCell "kept" ]} ∅
    {[ 1%positive := keptResource ]}.

(** The same store with a builder on which nothing was set yet. *)
Definition oneBuilder : accountsmgmt.Store :=
  accountsmgmt.mkStore {[ 1%positive := accountsmgmt.StringCell "kept" ]}
    {[ 1%positive := accountsmgmt.ResourceBuilder.mk None None false None None None ]}
    {[ 1%positive := keptResource ]}.

(** The characters a quoted text is made of here: ASCII, no backslash. *)
Definition plain (c : ascii) : bool :=
  (Ascii.nat_of_ascii c <? 128)%nat && negb (Ascii.eqb c "\").

Fixpoint plainText (text : string) : bool :=
  match text with
  | EmptyString => true
  | String c text' => plain c && plainText text'
  end.

(** The text that a pattern [\Q...] quotes, up to its end. *)
Definition quotedText (pattern : string) : option string :=
  match pattern with
  | String "\" (String "Q" text) =>
      if plainText text then Some text else None
  | _ => None
  end.

(** The regexp of a quoted text: its characters one after the other. *)
Fixpoint literal (text : string) : syntax.Regexp :=
  match text with
  | EmptyString => syntax.OpEmptyMatch
  | String c EmptyString => syntax.OpLiteral c
  | String c text' => syntax.OpConcat (syntax.OpLiteral c) (literal text')
  end.

(** An engine to run the definitions on: beyond the fragment it knows the
    patterns [\Q...], which match the text they quote as it is written,
    and nothing else (Go's package knows many more). *)
Definition quoting : regexp.Engine :=
  {| regexp.Prog := syntax.Regexp;
     regexp.compile := fun pattern =>
       match quotedText pattern with
       | Some text => Some (literal text)
       | None => None
       end;
     regexp.execute := regexp.leftmost;
     regexp.matches := fun re b => Occurrences.Matches b re |}.

End Scenarios.

(* ===================================================================== *)
(** ** Properties of IsPassing                                            *)
(* ===================================================================== *)

Section IsPassingFacts.

Implicit Types (m : LogMetric) (c : Z).

Lemma IsPassing_true m c :
  IsPassing m c = true <-> LowThreshold m < c < HighThreshold m.
Proof.
  unfold IsPassing. rewrite andb_true_iff, Z.gtb_lt, Z.ltb_lt. lia.
Qed.

Lemma IsPassing_false m c :
  IsPassing m c = false <-> c <= LowThreshold m \/ HighThreshold m <= c.
Proof.
  unfold IsPassing. rewrite andb_false_iff, Z.gtb_ltb, !Z.ltb_ge. lia.
Qed.

End IsPassingFacts.

(** C1: [IsPassing m c] is true exactly when [c] lies strictly between
    [LowThreshold] and [HighThreshold]; a count equal to either threshold
    fails. *)
Theorem C1_IsPassing_strict_bounds :
  forall (m : LogMetric) (c : Z),
    (IsPassing m c = true <-> LowThreshold m < c /\ c < HighThreshold m)
    /\ IsPassing m (LowThreshold m) = false
    /\ IsPassing m (HighThreshold m) = false.
Proof.
  intros m c. split; [apply IsPassing_true|].
  split; apply IsPassing_false; lia.
Qed.


Lemma C1_IsPassing_witness :
  IsPassing (mkLogMetric "errors" "error" 9999 (-1)) 0 = true
  /\ IsPassing (mkLogMetric "errors" "error" 9999 (-1)) 9999 = false.
Proof.
  destruct (C1_IsPassing_strict_bounds (mkLogMetric "errors" "error" 9999 (-1)) 0)
    as (Hiff & _ & Hhigh).
  split; [|exact Hhigh]. apply Hiff. simpl. lia.
Defined.

(* ===================================================================== *)
(** ** Properties of GetMetricByName                                      *)
(* ===================================================================== *)

Section GetMetricByNameFacts.

Implicit Types (metrics rest : LogMetrics) (name : string) (k : nat).

(** The loop answers with the zero-value metric or with an index at or
    after its start; it never answers nil. *)
Lemma GetMetricByName_loop_not_nil rest k name :
  GetMetricByName_loop rest k name <> NilPtr.
Proof.
  revert k. induction rest as [|m rest IH]; intros k; simpl; [discriminate|].
  destruct (String.eqb name (Name m)); [discriminate | apply IH].
Qed.

(** No metric of that name: the loop falls through to [&LogMetric{}]. *)
Lemma GetMetricByName_loop_unknown rest k name :
  (forall m, In m rest -> Name m <> name) ->
  GetMetricByName_loop rest k name = NewPtr zeroLogMetric.
Proof.
  revert k. induction rest as [|m rest IH]; intros k Hno; simpl; [reflexivity|].
  destruct (String.eqb_spec name (Name m)) as [->|_].
  - exfalso. apply (Hno m); [left|]; reflexivity.
  - apply IH. intros m' Hin. apply Hno. right. exact Hin.
Qed.

(** The first metric of that name sits [j] places into [rest]: the loop
    answers with its index. *)
Lemma GetMetricByName_loop_first rest k name j m :
  rest !! j = Some m -> Name m = name ->
  (forall i m', (i < j)%nat -> rest !! i = Some m' -> Name m' <> name) ->
  GetMetricByName_loop rest k name = ElemPtr (k + j).
Proof.
  revert k j. induction rest as [|m0 rest IH]; intros k j Hj Hname Hbefore.
  - discriminate.
  - simpl. destruct j as [|j]; simpl in Hj.
    + injection Hj as ->. subst name. rewrite String.eqb_refl.
      f_equal. lia.
    + destruct (String.eqb_spec name (Name m0)) as [Heq|_].
      * exfalso. apply (Hbefore 0%nat m0); [lia|reflexivity|congruence].
      * replace (k + S j)%nat with (S k + j)%nat by lia.
        apply IH; [exact Hj|exact Hname|].
        intros i m' Hi Hm'. apply (Hbefore (S i) m'); [lia|exact Hm'].
Qed.

(** Some metric has the name: then there is a first one. *)
Lemma first_of_name metrics name :
  (exists m, In m metrics /\ Name m = name) ->
  exists j m, metrics !! j = Some m /\ Name m = name /\
    forall i m', (i < j)%nat -> metrics !! i = Some m' -> Name m' <> name.
Proof.
  induction metrics as [|m0 metrics IH]; intros (m & Hin & Hname).
  - destruct Hin.
  - destruct (String.eqb_spec (Name m0) name) as [Heq|Hne].
    + exists 0%nat, m0. repeat split; [exact Heq|]. intros i m' Hi. lia.
    + destruct IH as (j & m1 & Hj & Hn & Hfirst).
      { destruct Hin as [->|Hin]; [contradiction|]. exists m. split; assumption. }
      exists (S j), m1. repeat split; [exact Hj|exact Hn|].
      intros [|i] m' Hi Hm'; simpl in Hm'.
      * injection Hm' as <-. exact Hne.
      * apply (Hfirst i m'); [lia|exact Hm'].
Qed.

End GetMetricByNameFacts.

(** The zero-value metric passes no count at all. *)
Lemma zeroLogMetric_never_passes (c : Z) : IsPassing zeroLogMetric c = false.
Proof. apply IsPassing_false. simpl. lia. Qed.

(** C2 (as stated, refuted): for a name that no metric has, the metric
    returned has thresholds 0 and 0, not the permissive defaults 9999 and
    -1, and a count of zero matches does not pass. *)
Lemma C2_unknown_name_zero_count_fails :
  let metrics :=
    [ {| Name := "errors"; RegEx := "error";
         HighThreshold := defaultHighThreshold;
         LowThreshold := defaultLowThreshold |} ] in
  exists m,
    GetMetricByName metrics "warnings" = NewPtr m
    /\ HighThreshold m = 0 /\ LowThreshold m = 0
    /\ IsPassing m 0 = false.
Proof.
  exists zeroLogMetric. repeat split.
Qed.

(** C2 (amended): for a name that no metric of the collection has,
    [GetMetricByName] returns a non-nil pointer to a metric with empty
    name, empty regex and both thresholds 0, which passes no count, a
    count of zero included. *)
Theorem C2_unknown_name_returns_zero_metric :
  forall (metrics : LogMetrics) (name : string),
    (forall m, In m metrics -> Name m <> name) ->
    exists m,
      GetMetricByName metrics name = NewPtr m
      /\ deref metrics (GetMetricByName metrics name) = Some m
      /\ Name m = EmptyString /\ RegEx m = EmptyString
      /\ HighThreshold m = 0 /\ LowThreshold m = 0
      /\ forall c, IsPassing m c = false.
Proof.
  intros metrics name Hno. exists zeroLogMetric.
  unfold GetMetricByName. rewrite (GetMetricByName_loop_unknown _ _ _ Hno).
  repeat split. apply zeroLogMetric_never_passes.
Qed.

Lemma C2_unknown_name_witness :
  exists m,
    GetMetricByName [mkLogMetric "errors" "error" 9999 (-1)] "warnings" = NewPtr m
    /\ deref [mkLogMetric "errors" "error" 9999 (-1)]
         (GetMetricByName [mkLogMetric "errors" "error" 9999 (-1)] "warnings") = Some m
    /\ Name m = EmptyString /\ RegEx m = EmptyString
    /\ HighThreshold m = 0 /\ LowThreshold m = 0
    /\ forall c, IsPassing m c = false.
Proof.
  apply (C2_unknown_name_returns_zero_metric
           [mkLogMetric "errors" "error" 9999 (-1)] "warnings").
  intros m [<-|[]]. simpl. discriminate.
Defined.

(** C3: [GetMetricByName] never returns nil; when some metric has the
    name it returns the address of the first such metric, in the order of
    the collection; when none has, the address of an empty metric. *)
Theorem C3_GetMetricByName_first_or_sentinel :
  forall (metrics : LogMetrics) (name : string),
    GetMetricByName metrics name <> NilPtr
    /\ ((exists m, In m metrics /\ Name m = name) ->
        exists k m,
          GetMetricByName metrics name = ElemPtr k
          /\ deref metrics (GetMetricByName metrics name) = Some m
          /\ Name m = name
          /\ forall i m', (i < k)%nat -> metrics !! i = Some m' -> Name m' <> name)
    /\ ((forall m, In m metrics -> Name m <> name) ->
        GetMetricByName metrics name = NewPtr zeroLogMetric
        /\ deref metrics (GetMetricByName metrics name) = Some zeroLogMetric).
Proof.
  intros metrics name. split; [apply GetMetricByName_loop_not_nil|]. split.
  - intros Hex. destruct (first_of_name _ _ Hex) as (j & m & Hj & Hn & Hfirst).
    exists j, m. unfold GetMetricByName.
    rewrite (GetMetricByName_loop_first metrics 0 name j m Hj Hn Hfirst).
    simpl. auto.
  - intros Hno. unfold GetMetricByName.
    rewrite (GetMetricByName_loop_unknown _ _ _ Hno). split; reflexivity.
Qed.

Lemma C3_GetMetricByName_witness :
  let metrics := [ mkLogMetric "a" "x" 5 0; mkLogMetric "b" "y" 7 1;
                   mkLogMetric "b" "z" 9 2 ] in
  GetMetricByName metrics "b" = ElemPtr 1
  /\ deref metrics (GetMetricByName metrics "b") = Some (mkLogMetric "b" "y" 7 1)
  /\ GetMetricByName metrics "c" = NewPtr zeroLogMetric.
Proof.
  intros metrics.
  destruct (C3_GetMetricByName_first_or_sentinel metrics "b") as (_ & Hfirst & _).
  destruct (C3_GetMetricByName_first_or_sentinel metrics "c") as (_ & _ & Hnone).
  split; [reflexivity|]. split; [reflexivity|].
  apply Hnone. intros m Hin.
  repeat (destruct Hin as [<-|Hin]; [simpl; discriminate|]). destruct Hin.
Defined.

(** C5: from a passing count, any count at or past [HighThreshold] fails
    and any count at or below [LowThreshold] fails; the passing counts of
    a metric form an interval. *)
Theorem C5_IsPassing_monotonic :
  forall (m : LogMetric),
    (forall c c', IsPassing m c = true -> HighThreshold m <= c' ->
                  c < c' /\ IsPassing m c' = false)
    /\ (forall c c', IsPassing m c = true -> c' <= LowThreshold m ->
                     c' < c /\ IsPassing m c' = false)
    /\ (forall a b x, IsPassing m a = true -> IsPassing m b = true ->
                      a <= x <= b -> IsPassing m x = true).
Proof.
  intros m. repeat split.
  - apply IsPassing_true in H. lia.
  - apply IsPassing_true in H. apply IsPassing_false. lia.
  - apply IsPassing_true in H. lia.
  - apply IsPassing_true in H. apply IsPassing_false. lia.
  - intros a b x Ha Hb Hx. apply IsPassing_true in Ha, Hb.
    apply IsPassing_true. lia.
Qed.

Lemma C5_IsPassing_witness :
  IsPassing (mkLogMetric "errors" "error" 10 (-1)) 10 = false
  /\ IsPassing (mkLogMetric "errors" "error" 10 (-1)) (-1) = false
  /\ IsPassing (mkLogMetric "errors" "error" 10 (-1)) 5 = true.
Proof.
  destruct (C5_IsPassing_monotonic (mkLogMetric "errors" "error" 10 (-1)))
    as (Hhigh & Hlow & Hbetween).
  split; [|split].
  - apply (Hhigh 3 10); [reflexivity|simpl; lia].
  - apply (Hlow 3 (-1)); [reflexivity|simpl; lia].
  - apply (Hbetween 0 9 5); [reflexivity|reflexivity|lia].
Defined.

(** C10: a metric whose [HighThreshold] is at most [LowThreshold + 1]
    passes no count; so it is with the zero-value metric, thresholds 0 and
    0, that [GetMetricByName] returns for an unknown name: a count of 0
    fails too. *)
Theorem C10_narrow_thresholds_never_pass :
  (forall (m : LogMetric),
     HighThreshold m <= LowThreshold m + 1 -> forall c, IsPassing m c = false)
  /\ (forall c, IsPassing zeroLogMetric c = false)
  /\ (forall (metrics : LogMetrics) (name : string),
        (forall m, In m metrics -> Name m <> name) ->
        deref metrics (GetMetricByName metrics name) = Some zeroLogMetric
        /\ IsPassing zeroLogMetric 0 = false).
Proof.
  split; [|split].
  - intros m Hm c. apply IsPassing_false. lia.
  - apply zeroLogMetric_never_passes.
  - intros metrics name Hno. unfold GetMetricByName.
    rewrite (GetMetricByName_loop_unknown _ _ _ Hno). split; reflexivity.
Qed.

Lemma C10_narrow_thresholds_witness :
  (forall c, IsPassing (mkLogMetric "m" "x" 4 3) c = false)
  /\ deref [] (GetMetricByName [] "m") = Some zeroLogMetric.
Proof.
  destruct C10_narrow_thresholds_never_pass as (Hnarrow & _ & Hunknown).
  split.
  - apply Hnarrow. simpl. lia.
  - apply (Hunknown [] "m"). intros m [].
Defined.

(* ===================================================================== *)
(** ** Properties of the waiter                                           *)
(* ===================================================================== *)

Section WaiterFacts.
Import operators Waiter.

Context {St : Type}.
Implicit Types (predicate : Predicate St) (s : St).

(** A predicate that is never ready and never fails uses up every check:
    the wait times out at the last of them. *)
Lemma WaitUntil_loop_never_ready predicate interval :
  (forall s, fst (predicate s) = (false, None)) ->
  forall retries now calls s,
    let r := WaitUntil_loop retries interval predicate now calls s in
    succeeded r = false
    /\ waitErr r = Some TimedOut
    /\ invocations r = (calls + S retries)%nat
    /\ elapsed r = now + Z.of_nat retries * interval.
Proof.
  intros Hnever retries. induction retries as [|retries IH]; intros now calls s.
  - simpl. specialize (Hnever s). destruct (predicate s) as [[done e] s'].
    simpl in Hnever. injection Hnever as -> ->. simpl.
    repeat split; lia.
  - simpl. specialize (Hnever s). destruct (predicate s) as [[done e] s'].
    simpl in Hnever. injection Hnever as -> ->.
    destruct (IH (now + interval) (S calls) s') as (H1 & H2 & H3 & H4).
    repeat split; [exact H1|exact H2|lia|lia].
Qed.

End WaiterFacts.

(** C6: a predicate that answers [(false, someErr)] at its first
    invocation ends the wait at once: [someErr] is returned to the caller,
    the predicate has been invoked exactly once and no time has passed. *)
Theorem C6_first_error_ends_wait :
  forall (St : Type) (predicate : Waiter.Predicate St) (interval timeout : Z)
         (s s' : St) (someErr : operators.error),
    predicate s = ((false, Some someErr), s') ->
    Waiter.WaitUntil interval timeout predicate s =
      {| Waiter.succeeded := false;
         Waiter.waitErr := Some (Waiter.PredicateError someErr);
         Waiter.invocations := 1;
         Waiter.elapsed := 0;
         Waiter.final := s' |}.
Proof.
  intros St predicate interval timeout s s' someErr Hfirst.
  unfold Waiter.WaitUntil.
  destruct (Z.to_nat (timeout / interval)); simpl; rewrite Hfirst; reflexivity.
Qed.

Lemma C6_first_error_witness :
  Waiter.invocations
    (Waiter.WaitUntil 30 900 (operators.secretExists Scenarios.refusing)
       operators.initVars) = 1%nat
  /\ Waiter.waitErr
       (Waiter.WaitUntil 30 900 (operators.secretExists Scenarios.refusing)
          operators.initVars)
     = Some (Waiter.PredicateError "connection refused").
Proof.
  rewrite (C6_first_error_ends_wait _ (operators.secretExists Scenarios.refusing)
             30 900 operators.initVars _ "connection refused" eq_refl).
  split; reflexivity.
Defined.

(** C7: with interval 1 and timeout 2, a predicate that always answers
    [(false, nil)] makes the wait end, not succeeded, with the [TimedOut]
    error, which is not the error of a predicate. *)
Theorem C7_never_ready_times_out :
  forall (St : Type) (predicate : Waiter.Predicate St) (s : St),
    (forall s0, fst (predicate s0) = (false, None)) ->
    let r := Waiter.WaitUntil 1 2 predicate s in
    Waiter.succeeded r = false
    /\ Waiter.waitErr r = Some Waiter.TimedOut
    /\ (forall e, Waiter.waitErr r <> Some (Waiter.PredicateError e)).
Proof.
  intros St predicate s Hnever r.
  destruct (WaitUntil_loop_never_ready predicate 1 Hnever 2 0 0%nat s)
    as (H1 & H2 & _).
  change (Waiter.WaitUntil_loop 2 1 predicate 0 0 s) with r in H1, H2.
  repeat split.
  - exact H1.
  - exact H2.
  - intros e. rewrite H2. discriminate.
Qed.

Lemma C7_never_ready_witness :
  Waiter.waitErr
    (Waiter.WaitUntil 1 2 (operators.secretExists Scenarios.no_secret_yet)
       operators.initVars)
  = Some Waiter.TimedOut.
Proof.
  destruct (C7_never_ready_times_out _
              (operators.secretExists Scenarios.no_secret_yet)
              operators.initVars (fun _ => eq_refl)) as (_ & Hout & _).
  exact Hout.
Defined.

(** The three ways a wait ends, on the predicate of the Certman test: the
    secret shows up at the fourth check, the cluster refuses the first
    call, the secret never shows up. *)
Example WaitUntil_secret_at_fourth :
  let r := Waiter.WaitUntil 1 10 (operators.secretExists Scenarios.secret_at_fourth)
             operators.initVars in
  Waiter.succeeded r = true /\ Waiter.waitErr r = None
  /\ Waiter.invocations r = 4%nat /\ Waiter.elapsed r = 3
  /\ operators.secretName (Waiter.final r) = "cert"%string.
Proof. repeat split. Qed.

Example WaitUntil_never_ready_checks :
  let r := Waiter.WaitUntil 1 2 (operators.secretExists Scenarios.no_secret_yet)
             operators.initVars in
  Waiter.invocations r = 3%nat /\ Waiter.elapsed r = 2.
Proof. repeat split. Qed.

(* ===================================================================== *)
(** ** Properties of the resolver                                         *)
(* ===================================================================== *)

Section ResolverFacts.
Import Resolver.

Context {Sys : System}.

Implicit Types (d : FieldDescriptor) (ds : list FieldDescriptor) (w : World Sys).








End ResolverFacts.




Example resolve_nightly :
  fst (Resolver.resolve [Scenarios.providerField; Scenarios.jobNameField] (Scenarios.nightly 0))
  = inr {[ "Provider"%string := Resolver.VString "ocm";
           "JobName"%string := Resolver.VString "nightly" ]}.
Proof. vm_compute. reflexivity. Qed.

Example resolve_missing :
  fst (Resolver.resolve [Scenarios.providerField; Scenarios.jobNameField]
         (Resolver.mkWorld Scenarios.counting ∅ None 0%nat))
  = inl (Resolver.MissingRequiredField ["JobName"%string]).
Proof. reflexivity. Qed.

(* ===================================================================== *)
(** ** Properties of the rune decoder and of the matcher                  *)
(* ===================================================================== *)

Section DecodeFacts.
Import utf8 regexp.

(** An entry of [first] is ASCII, invalid, or names a size of 2 to 4. *)
Lemma first_cases (p0 : Z) :
  first p0 >= as_ \/ 2 <= Z.land (first p0) 7 <= 4.
Proof.
  unfold first. repeat case_match; vm_compute; intuition discriminate.
Qed.

(** [DecodeRune] consumes at least one byte of a non-empty slice and never
    more than there are. *)
Lemma DecodeRune_size (p : list byte) :
  p <> [] -> (1 <= snd (DecodeRune p) <= length p)%nat.
Proof.
  destruct p as [|b0 p]; [congruence|]. intros _.
  unfold DecodeRune.
  destruct (first_cases (byteZ b0)) as [Has|Hsz].
  - destruct (Z.geb_spec (first (byteZ b0)) as_); [simpl; lia|lia].
  - destruct (Z.geb_spec (first (byteZ b0)) as_); [simpl; lia|].
    set (sz := Z.to_nat (Z.land (first (byteZ b0)) 7)).
    assert (2 <= sz <= 4)%nat as Hsz' by (unfold sz; lia).
    clearbody sz.
    destruct (Nat.ltb_spec (length (b0 :: p)) sz); [simpl; lia|].
    repeat case_match; simpl in *; try lia.
    all: repeat match goal with
         | H : (_ <=? _)%nat = _ |- _ => first [apply Nat.leb_le in H | apply Nat.leb_gt in H]
         end; lia.
Qed.

Lemma step_end (b : list byte) (pos : nat) :
  (length b <= pos)%nat -> step b pos = (endOfText, 0%nat).
Proof.
  intros Hpos. unfold step. rewrite drop_ge by lia. reflexivity.
Qed.

(** Inside the text a step consumes at least one byte and stays inside. *)
Lemma step_width (b : list byte) (pos : nat) :
  (pos < length b)%nat ->
  (1 <= snd (step b pos) /\ pos + snd (step b pos) <= length b)%nat.
Proof.
  intros Hpos. unfold step.
  assert (length (drop pos b) = (length b - pos)%nat) as Hlen
    by apply length_drop.
  destruct (drop pos b) as [|c rest] eqn:Hdrop; [simpl in Hlen; lia|].
  destruct (byteZ c <? RuneSelf); [simpl; lia|].
  pose proof (DecodeRune_size (c :: rest) ltac:(discriminate)) as Hsz.
  rewrite Hlen in Hsz. lia.
Qed.

End DecodeFacts.

Section ChainFacts.
Import syntax regexp Occurrences.

Variable b : list byte.

Implicit Types (pos e : nat) (re : syntax.Regexp).

(** More fuel than bytes left changes nothing. *)
Lemma starts_from_fuel2 fuel1 fuel2 pos :
  (length b - pos <= fuel1)%nat -> (length b - pos <= fuel2)%nat ->
  starts_from b fuel1 pos = starts_from b fuel2 pos.
Proof.
  revert fuel2 pos.
  induction fuel1 as [|fuel1 IH]; intros fuel2 pos Hfuel1 Hfuel2.
  - destruct fuel2 as [|fuel2]; [reflexivity|].
    simpl. rewrite step_end by lia. reflexivity.
  - destruct fuel2 as [|fuel2].
    + simpl. rewrite step_end by lia. reflexivity.
    + simpl. destruct (Nat.ltb_spec 0 (snd (step b pos))) as [Hw|]; [|reflexivity].
      f_equal. apply IH; lia.
Qed.

Lemma starts_from_fuel fuel pos :
  (length b - pos <= fuel)%nat -> starts_from b fuel pos = starts b pos.
Proof. intros Hfuel. apply starts_from_fuel2; [exact Hfuel|lia]. Qed.

Lemma starts_unfold pos :
  starts b pos =
  pos :: (if (0 <? snd (step b pos))%nat
          then starts b (pos + snd (step b pos)) else []).
Proof.
  destruct (Nat.le_gt_cases (length b) pos) as [Hend|Hin].
  - unfold starts at 1. replace (length b - pos)%nat with 0%nat by lia.
    rewrite step_end by exact Hend. reflexivity.
  - destruct (step_width b pos Hin) as [Hw1 Hw2].
    unfold starts at 1. destruct (length b - pos)%nat as [|n] eqn:Hn; [lia|].
    simpl. destruct (Nat.ltb_spec 0 (snd (step b pos))); [|lia].
    f_equal. apply starts_from_fuel. lia.
Qed.

Lemma search_fuel2 re fuel1 fuel2 pos :
  (length b - pos <= fuel1)%nat -> (length b - pos <= fuel2)%nat ->
  search b re fuel1 pos = search b re fuel2 pos.
Proof.
  revert fuel2 pos.
  induction fuel1 as [|fuel1 IH]; intros fuel2 pos Hfuel1 Hfuel2.
  - destruct fuel2 as [|fuel2]; [reflexivity|].
    simpl. rewrite step_end by lia. reflexivity.
  - destruct fuel2 as [|fuel2].
    + simpl. rewrite step_end by lia. reflexivity.
    + simpl. destruct (run b re pos); [|reflexivity].
      destruct (Nat.ltb_spec 0 (snd (step b pos))) as [Hw|]; [|reflexivity].
      apply IH; lia.
Qed.

Lemma search_fuel re fuel pos :
  (length b - pos <= fuel)%nat -> search b re fuel pos = leftmost re b pos.
Proof. intros Hfuel. apply search_fuel2; [exact Hfuel|lia]. Qed.

(** The search, one start at a time. *)
Lemma leftmost_unfold re pos :
  leftmost re b pos =
  match run b re pos with
  | e :: _ => Some (pos, e)
  | [] => if (0 <? snd (step b pos))%nat
          then leftmost re b (pos + snd (step b pos)) else None
  end.
Proof.
  destruct (Nat.le_gt_cases (length b) pos) as [Hend|Hin].
  - unfold leftmost at 1. replace (length b - pos)%nat with 0%nat by lia.
    simpl. rewrite step_end by exact Hend. reflexivity.
  - destruct (step_width b pos Hin) as [Hw1 Hw2].
    unfold leftmost at 1. destruct (length b - pos)%nat as [|n] eqn:Hn; [lia|].
    simpl. destruct (run b re pos); [|reflexivity].
    destruct (Nat.ltb_spec 0 (snd (step b pos))); [|lia].
    apply search_fuel. lia.
Qed.

(** Induction along the starts, from the end of the text backwards. *)
Lemma chain_ind (P : nat -> Prop) :
  (forall pos,
     ((0 < snd (step b pos))%nat -> P (pos + snd (step b pos))%nat) -> P pos) ->
  forall pos, P pos.
Proof.
  intros Hstep pos.
  remember (length b - pos)%nat as n eqn:Hn. revert pos Hn.
  induction n as [n IH] using lt_wf_ind. intros pos Hn.
  apply Hstep. intros Hw.
  destruct (Nat.le_gt_cases (length b) pos) as [Hend|Hin].
  - rewrite step_end in Hw by exact Hend. simpl in Hw. lia.
  - destruct (step_width b pos Hin) as [Hw1 Hw2].
    apply (IH (length b - (pos + snd (step b pos)))%nat); [lia|reflexivity].
Qed.

Lemma starts_self pos : In pos (starts b pos).
Proof. rewrite starts_unfold. left. reflexivity. Qed.

Lemma starts_ge pos e : In e (starts b pos) -> (pos <= e)%nat.
Proof.
  revert e. induction pos as [pos IH] using chain_ind. intros e.
  rewrite starts_unfold. intros [<-|Hin]; [lia|].
  destruct (Nat.ltb_spec 0 (snd (step b pos))); [|destruct Hin].
  specialize (IH ltac:(lia) e Hin). lia.
Qed.

Lemma starts_next pos e :
  (0 < snd (step b pos))%nat ->
  In e (starts b (pos + snd (step b pos))) -> In e (starts b pos).
Proof.
  intros Hw Hin. rewrite starts_unfold. right.
  destruct (Nat.ltb_spec 0 (snd (step b pos))); [exact Hin|lia].
Qed.

Lemma starts_trans pos q e :
  In q (starts b pos) -> In e (starts b q) -> In e (starts b pos).
Proof.
  revert q e. induction pos as [pos IH] using chain_ind. intros q e Hq He.
  rewrite starts_unfold in Hq. destruct Hq as [<-|Hq]; [exact He|].
  destruct (Nat.ltb_spec 0 (snd (step b pos))) as [Hw|]; [|destruct Hq].
  apply starts_next; [exact Hw|]. apply (IH Hw q e Hq He).
Qed.

(** The starts up to a later start [q], and then the starts from [q]. *)
Lemma starts_split pos q :
  In q (starts b pos) ->
  exists pre, starts b pos = pre ++ starts b q
              /\ forall s, In s pre -> (pos <= s < q)%nat.
Proof.
  revert q. induction pos as [pos IH] using chain_ind. intros q Hq.
  pose proof (starts_unfold pos) as Hunf.
  rewrite Hunf in Hq. destruct Hq as [<-|Hq].
  - exists []. split; [reflexivity|]. intros s [].
  - destruct (Nat.ltb_spec 0 (snd (step b pos))) as [Hw|]; [|destruct Hq].
    destruct (IH Hw q Hq) as (pre & Hpre & Hlt).
    exists (pos :: pre). split.
    + rewrite Hunf, Hpre. reflexivity.
    + pose proof (starts_ge _ _ Hq).
      intros s [<-|Hs]; [lia|]. specialize (Hlt s Hs). lia.
Qed.

End ChainFacts.

Lemma flat_map_ext_on {A B : Type} (f g : A -> list B) (l : list A) :
  (forall a, In a l -> f a = g a) -> flat_map f l = flat_map g l.
Proof.
  induction l as [|a l IH]; intros Hfg; [reflexivity|].
  simpl. rewrite (Hfg a) by (left; reflexivity).
  rewrite IH; [reflexivity|]. intros a' Ha'. apply Hfg. right. exact Ha'.
Qed.

Section RunFacts.
Import syntax regexp Occurrences.

Variable b : list byte.

Implicit Types (pos e : nat) (re : syntax.Regexp) (body : nat -> list nat).

Lemma loop_on_chain body greedy fuel :
  (forall p e, In e (body p) -> In e (starts b p)) ->
  forall pos e, In e (loop body greedy fuel pos) -> In e (starts b pos).
Proof.
  intros Hbody. induction fuel as [|fuel IH]; intros pos e He.
  - destruct He as [<-|[]]. apply starts_self.
  - simpl in He.
    assert (In e (flat_map (loop body greedy fuel)
                    (List.filter (fun p => (pos <? p)%nat) (body pos)))
            \/ e = pos) as [Hagain| ->].
    { destruct greedy.
      - apply in_app_or in He. destruct He as [He|[<-|[]]]; auto.
      - destruct He as [<-|He]; auto. }
    + apply in_flat_map in Hagain. destruct Hagain as (p & Hp & Hloop).
      apply filter_In in Hp. destruct Hp as [Hp _].
      apply (starts_trans b pos p e); [apply Hbody, Hp|apply IH, Hloop].
    + apply starts_self.
Qed.

(** A match ends at one of the starts a search from its own start tries:
    it is made of whole runes. *)
Lemma run_on_chain re : forall pos e, In e (run b re pos) -> In e (starts b pos).
Proof.
  induction re as [| |c| |sub IH|greedy sub IH|greedy sub IH|greedy sub IH
                  |sub1 IH1 sub2 IH2|sub1 IH1 sub2 IH2]; intros pos e He;
    cbn [run] in He.
  - destruct He.
  - destruct He as [<-|[]]. apply starts_self.
  - destruct (step b pos) as [r width] eqn:Hstep.
    destruct (Nat.ltb_spec 0 width) as [Hw|]; [|destruct He].
    destruct (r =? _); [|destruct He]. destruct He as [<-|[]].
    replace width with (snd (step b pos)) in * by (rewrite Hstep; reflexivity).
    apply starts_next; [exact Hw|apply starts_self].
  - destruct (step b pos) as [r width] eqn:Hstep.
    destruct (Nat.ltb_spec 0 width) as [Hw|]; [|destruct He].
    destruct (negb _); [|destruct He]. destruct He as [<-|[]].
    replace width with (snd (step b pos)) in * by (rewrite Hstep; reflexivity).
    apply starts_next; [exact Hw|apply starts_self].
  - apply IH, He.
  - apply (loop_on_chain _ _ _ IH _ _ He).
  - apply in_flat_map in He. destruct He as (p & Hp & Hloop).
    apply (starts_trans b pos p e); [apply IH, Hp|].
    apply (loop_on_chain _ _ _ IH _ _ Hloop).
  - assert (In e (run b sub pos) \/ e = pos) as [Hsub| ->].
    { destruct greedy.
      - apply in_app_or in He. destruct He as [He|[<-|[]]]; auto.
      - destruct He as [<-|He]; auto. }
    + apply IH, Hsub.
    + apply starts_self.
  - apply in_flat_map in He. destruct He as (p & Hp & Hsub2).
    apply (starts_trans b pos p e); [apply IH1, Hp|apply IH2, Hsub2].
  - apply in_app_or in He. destruct He as [He|He]; [apply IH1, He|apply IH2, He].
Qed.

Lemma starts_le pos e : (pos <= length b)%nat -> In e (starts b pos) -> (e <= length b)%nat.
Proof.
  revert e. induction pos as [pos IH] using (chain_ind b). intros e Hpos.
  rewrite starts_unfold. intros [<-|Hin]; [exact Hpos|].
  destruct (Nat.ltb_spec 0 (snd (step b pos))) as [Hw|]; [|destruct Hin].
  destruct (Nat.le_gt_cases (length b) pos) as [Hend|Hlt].
  - rewrite step_end in Hw by exact Hend. simpl in Hw. lia.
  - destruct (step_width b pos Hlt). apply (IH Hw e); [lia|exact Hin].
Qed.

(** A match starts no later than it ends and ends inside the text. *)
Lemma run_bounds re pos e :
  (pos <= length b)%nat -> In e (run b re pos) -> (pos <= e <= length b)%nat.
Proof.
  intros Hpos He. apply run_on_chain in He. split.
  - apply (starts_ge b), He.
  - apply (starts_le pos); assumption.
Qed.

(** The loop of a [*] never runs out of the fuel [run] gives it. *)
Lemma loop_fuel body greedy fuel1 fuel2 :
  (forall p e, In e (body p) -> (e <= Nat.max p (length b))%nat) ->
  forall pos,
    (length b - pos < fuel1)%nat -> (length b - pos < fuel2)%nat ->
    loop body greedy fuel1 pos = loop body greedy fuel2 pos.
Proof.
  intros Hbody. revert fuel2.
  induction fuel1 as [|fuel1 IH]; intros fuel2 pos Hfuel1 Hfuel2; [lia|].
  destruct fuel2 as [|fuel2]; [lia|]. simpl.
  assert (flat_map (loop body greedy fuel1)
            (List.filter (fun p => (pos <? p)%nat) (body pos))
          = flat_map (loop body greedy fuel2)
              (List.filter (fun p => (pos <? p)%nat) (body pos))) as ->;
    [|reflexivity].
  apply flat_map_ext_on. intros p Hp. apply filter_In in Hp.
  destruct Hp as [Hp Hlt]. apply Nat.ltb_lt in Hlt.
  specialize (Hbody pos p Hp). apply IH; lia.
Qed.

End RunFacts.

Section MatchesFacts.
Import syntax regexp Occurrences.

Variable b : list byte.

Implicit Types (pos i j e : nat) (re sub : syntax.Regexp).

Lemma loop_cases (body : nat -> list nat) greedy fuel pos e :
  In e (loop body greedy (S fuel) pos) <->
  e = pos
  \/ exists p, In p (body pos) /\ (pos < p)%nat /\ In e (loop body greedy fuel p).
Proof.
  cbn [loop].
  assert (In e (flat_map (loop body greedy fuel)
                  (List.filter (fun p => (pos <? p)%nat) (body pos)))
          <-> exists p, In p (body pos) /\ (pos < p)%nat
                        /\ In e (loop body greedy fuel p)) as Hagain.
  { rewrite in_flat_map. split; intros (p & Hp & Hloop); exists p.
    - apply filter_In in Hp. destruct Hp as [Hp Hlt]. apply Nat.ltb_lt in Hlt. auto.
    - destruct Hloop as [Hlt Hloop]. split; [|exact Hloop].
      apply filter_In. split; [exact Hp|]. apply Nat.ltb_lt, Hlt. }
  destruct greedy.
  - rewrite in_app_iff, Hagain. simpl. intuition congruence.
  - simpl. rewrite Hagain. intuition congruence.
Qed.

(** What the loop of a [*] delivers is a match of the [*]. *)
Lemma loop_sound greedy sub fuel :
  (forall p e, In e (run b sub p) -> Matches b sub p e) ->
  forall pos e, In e (loop (run b sub) greedy fuel pos) ->
                Matches b (OpStar greedy sub) pos e.
Proof.
  intros Hsub. induction fuel as [|fuel IH]; intros pos e He.
  - destruct He as [<-|[]]. constructor.
  - apply loop_cases in He. destruct He as [->|(p & Hp & _ & Hloop)].
    + constructor.
    + apply (MStarRound b greedy sub pos p e); [apply Hsub, Hp|apply IH, Hloop].
Qed.

(** Every end the matcher delivers is the end of a match. *)
Lemma run_sound re : forall pos e, In e (run b re pos) -> Matches b re pos e.
Proof.
  induction re as [| |c| |sub IH|greedy sub IH|greedy sub IH|greedy sub IH
                  |sub1 IH1 sub2 IH2|sub1 IH1 sub2 IH2]; intros pos e He;
    cbn [run] in He.
  - destruct He.
  - destruct He as [<-|[]]. constructor.
  - destruct (step b pos) as [r width] eqn:Hstep.
    destruct (Nat.ltb_spec 0 width) as [Hw|]; [|destruct He].
    destruct (Z.eqb_spec r (Z.of_nat (Ascii.nat_of_ascii c))) as [Hr|]; [|destruct He].
    destruct He as [<-|[]]. apply (MLiteral b c pos r width); assumption.
  - destruct (step b pos) as [r width] eqn:Hstep.
    destruct (Nat.ltb_spec 0 width) as [Hw|]; [|destruct He].
    destruct (Z.eqb_spec r 10) as [|Hr]; [destruct He|].
    destruct He as [<-|[]]. apply (MAnyCharNotNL b pos r width); assumption.
  - constructor. apply IH, He.
  - apply (loop_sound greedy sub (S (length b)) IH), He.
  - apply in_flat_map in He. destruct He as (p & Hp & Hloop).
    apply (MPlus b greedy sub pos p e); [apply IH, Hp|].
    apply (loop_sound greedy sub (S (length b)) IH), Hloop.
  - assert (In e (run b sub pos) \/ e = pos) as [Hsub| ->].
    { destruct greedy.
      - apply in_app_or in He. destruct He as [He|[<-|[]]]; auto.
      - destruct He as [<-|He]; auto. }
    + apply MQuestOne, IH, Hsub.
    + apply MQuestNone.
  - apply in_flat_map in He. destruct He as (p & Hp & Hsub2).
    apply (MConcat b sub1 sub2 pos p e); [apply IH1, Hp|apply IH2, Hsub2].
  - apply in_app_or in He.
    destruct He as [He|He]; [apply MAlternateLeft, IH1, He|apply MAlternateRight, IH2, He].
Qed.

(** Every match inside the text ends where the matcher says one can. *)
Lemma run_complete re i j :
  Matches b re i j -> (i <= length b)%nat -> In j (run b re i).
Proof.
  intros Hm. induction Hm as [i|c i r width Hstep Hw Hr|i r width Hstep Hw Hr
                              |sub i j _ IH|greedy sub i
                              |greedy sub i k j _ IH1 _ IH2
                              |greedy sub i k j _ IH1 _ IH2
                              |greedy sub i|greedy sub i j _ IH
                              |sub1 sub2 i k j _ IH1 _ IH2
                              |sub1 sub2 i j _ IH|sub1 sub2 i j _ IH];
    intros Hi; cbn [run].
  - left. reflexivity.
  - rewrite Hstep. destruct (Nat.ltb_spec 0 width); [|lia].
    destruct (Z.eqb_spec r (Z.of_nat (Ascii.nat_of_ascii c))); [|contradiction].
    left. reflexivity.
  - rewrite Hstep. destruct (Nat.ltb_spec 0 width); [|lia].
    destruct (Z.eqb_spec r 10); [contradiction|]. left. reflexivity.
  - apply IH, Hi.
  - apply loop_cases. left. reflexivity.
  - specialize (IH1 Hi).
    destruct (run_bounds b sub i k Hi IH1) as [Hik Hk].
    specialize (IH2 Hk). cbn [run] in IH2.
    destruct (Nat.eq_dec k i) as [->|Hne]; [exact IH2|].
    apply loop_cases. right. exists k. split; [exact IH1|]. split; [lia|].
    rewrite (loop_fuel b (run b sub) greedy (length b) (S (length b))); [exact IH2| |lia|lia].
    intros p e He. pose proof (run_on_chain b sub p e He) as Hchain.
    destruct (Nat.le_gt_cases p (length b)) as [Hin|Hout].
    + pose proof (starts_le b p e Hin Hchain). lia.
    + rewrite starts_unfold, step_end in Hchain by lia.
      destruct Hchain as [<-|[]]. lia.
  - specialize (IH1 Hi).
    destruct (run_bounds b sub i k Hi IH1) as [Hik Hk].
    specialize (IH2 Hk). cbn [run] in IH2.
    apply in_flat_map. exists k. split; assumption.
  - destruct greedy; [apply in_or_app; right|]; left; reflexivity.
  - specialize (IH Hi). destruct greedy; [apply in_or_app; left|right]; exact IH.
  - specialize (IH1 Hi).
    destruct (run_bounds b sub1 i k Hi IH1) as [Hik Hk].
    apply in_flat_map. exists k. split; [exact IH1|apply IH2, Hk].
  - apply in_or_app. left. apply IH, Hi.
  - apply in_or_app. right. apply IH, Hi.
Qed.

(** The matcher and the reading of the operators agree. *)
Lemma run_Matches re i j :
  (i <= length b)%nat -> In j (run b re i) <-> Matches b re i j.
Proof.
  intros Hi. split; [apply run_sound|intros Hm; apply run_complete; assumption].
Qed.

(** What the search of the fragment reports is the leftmost match. *)
Lemma leftmost_found re : forall pos m0 m1,
  (pos <= length b)%nat ->
  leftmost re b pos = Some (m0, m1) ->
  In m0 (starts b pos) /\ In m1 (starts b m0) /\ Matches b re m0 m1
  /\ forall i j, In i (starts b pos) -> (i < m0)%nat -> ~ Matches b re i j.
Proof.
  intros pos. induction pos as [pos IH] using (chain_ind b).
  intros m0 m1 Hpos. rewrite leftmost_unfold.
  destruct (run b re pos) as [|e l] eqn:Hrun.
  - destruct (Nat.ltb_spec 0 (snd (step b pos))) as [Hw|]; [|discriminate].
    intros Hfound.
    assert (pos < length b)%nat as Hin.
    { destruct (Nat.le_gt_cases (length b) pos) as [Hend|]; [|assumption].
      rewrite step_end in Hw by exact Hend. simpl in Hw. lia. }
    destruct (step_width b pos Hin) as [_ Hnext].
    destruct (IH Hw m0 m1 Hnext Hfound) as (Hm0 & Hm1 & Hm & Hleft).
    split; [apply starts_next; assumption|]. split; [exact Hm1|].
    split; [exact Hm|].
    intros i j Hi Hlt Hij. rewrite starts_unfold in Hi. destruct Hi as [<-|Hi].
    + apply run_complete in Hij; [|exact Hpos]. rewrite Hrun in Hij. destruct Hij.
    + destruct (Nat.ltb_spec 0 (snd (step b pos))); [|destruct Hi].
      apply (Hleft i j Hi Hlt Hij).
  - intros [= <- <-].
    assert (In e (run b re pos)) as He by (rewrite Hrun; left; reflexivity).
    split; [apply starts_self|]. split; [apply run_on_chain with re, He|].
    split; [apply run_sound, He|].
    intros i j Hi Hlt. pose proof (starts_ge b _ _ Hi). lia.
Qed.

Lemma leftmost_nothing re : forall pos,
  (pos <= length b)%nat ->
  leftmost re b pos = None ->
  forall i j, In i (starts b pos) -> ~ Matches b re i j.
Proof.
  intros pos. induction pos as [pos IH] using (chain_ind b).
  intros Hpos. rewrite leftmost_unfold.
  destruct (run b re pos) as [|e l] eqn:Hrun; [|discriminate].
  intros Hnone i j Hi Hij. rewrite starts_unfold in Hi. destruct Hi as [<-|Hi].
  - apply run_complete in Hij; [|exact Hpos]. rewrite Hrun in Hij. destruct Hij.
  - destruct (Nat.ltb_spec 0 (snd (step b pos))) as [Hw|]; [|destruct Hi].
    assert (pos < length b)%nat as Hin.
    { destruct (Nat.le_gt_cases (length b) pos) as [Hend|]; [|assumption].
      rewrite step_end in Hw by exact Hend. simpl in Hw. lia. }
    destruct (step_width b pos Hin) as [_ Hnext].
    apply (IH Hw Hnext Hnone i j Hi Hij).
Qed.

End MatchesFacts.

Section ApartFacts.
Import Occurrences.

Lemma apart_spec (o1 o2 : nat * nat) :
  apart o1 o2 = true <->
  (fst o1 < fst o2 /\ snd o1 <= fst o2
   /\ (fst o2 = snd o2 -> snd o1 < fst o2))%nat.
Proof.
  unfold apart.
  rewrite !andb_true_iff, negb_true_iff, andb_false_iff,
    Nat.ltb_lt, Nat.leb_le, !Nat.eqb_neq.
  lia.
Qed.

Lemma apart_trans (o1 o2 o3 : nat * nat) :
  apart o1 o2 = true -> apart o2 o3 = true -> apart o1 o3 = true.
Proof. rewrite !apart_spec. lia. Qed.

(** In a separated list every occurrence is apart from all later ones. *)
Lemma separated_cons (o : nat * nat) (l : list (nat * nat)) :
  separated (o :: l) = true ->
  separated l = true /\ forall o', In o' l -> apart o o' = true.
Proof.
  revert o. induction l as [|o2 l IH]; intros o Hsep.
  - split; [reflexivity|]. intros o' [].
  - change (apart o o2 && separated (o2 :: l) = true) in Hsep.
    apply andb_true_iff in Hsep. destruct Hsep as [Hap Hsep].
    split; [exact Hsep|]. intros o' [<-|Hin]; [exact Hap|].
    apply (apart_trans o o2 o'); [exact Hap|]. apply (IH o2 Hsep), Hin.
Qed.

End ApartFacts.

Section StartsFacts.
Import syntax regexp Occurrences.

Variable b : list byte.

(** The starts of a search, each as an empty occurrence, are separated. *)
Lemma starts_separated : forall pos,
  separated (map (fun i => (i, i)) (starts b pos)) = true.
Proof.
  intros pos. induction pos as [pos IH] using (chain_ind b).
  rewrite starts_unfold.
  destruct (Nat.ltb_spec 0 (snd (step b pos))) as [Hw|Hw]; [|reflexivity].
  specialize (IH Hw). rewrite starts_unfold in IH |- *.
  cbn [map separated] in IH |- *. rewrite IH, andb_true_r.
  apply apart_spec. simpl. lia.
Qed.

Lemma starts_nonempty pos : (1 <= length (starts b pos))%nat.
Proof. rewrite starts_unfold. simpl. lia. Qed.

Lemma starts_length pos : (length (starts b pos) <= length b + 1 - pos)%nat \/ (length b < pos)%nat.
Proof.
  induction pos as [pos IH] using (chain_ind b).
  destruct (Nat.le_gt_cases pos (length b)) as [Hin|Hout]; [left|right; exact Hout].
  rewrite starts_unfold.
  destruct (Nat.ltb_spec 0 (snd (step b pos))) as [Hw|Hw]; [|simpl; lia].
  destruct (Nat.le_gt_cases (length b) pos) as [Hend|Hlt].
  - rewrite step_end in Hw by exact Hend. simpl in Hw. lia.
  - destruct (step_width b pos Hlt). destruct (IH Hw) as [Hlen|Hbad]; [|lia].
    simpl. lia.
Qed.

(** In a text of ASCII bytes every position is a start. *)
Lemma starts_ascii :
  Forall (fun c => utf8.byteZ c < utf8.RuneSelf) b ->
  forall pos, (pos <= length b)%nat ->
              length (starts b pos) = (length b + 1 - pos)%nat.
Proof.
  intros Hascii pos. induction pos as [pos IH] using (chain_ind b). intros Hpos.
  rewrite starts_unfold.
  destruct (Nat.le_gt_cases (length b) pos) as [Hend|Hlt].
  - rewrite step_end by exact Hend. simpl. lia.
  - assert (snd (step b pos) = 1%nat) as Hone.
    { unfold step. destruct (drop pos b) as [|c rest] eqn:Hdrop.
      - apply (f_equal length) in Hdrop. rewrite length_drop in Hdrop.
        simpl in Hdrop. lia.
      - assert (In c b) as Hc.
        { apply list_elem_of_In. apply (list_elem_of_lookup_2 b pos).
          rewrite <- (Nat.add_0_r pos), <- lookup_drop, Hdrop. reflexivity. }
        rewrite Forall_forall in Hascii. apply list_elem_of_In in Hc.
        specialize (Hascii c Hc).
        destruct (Z.ltb_spec (utf8.byteZ c) utf8.RuneSelf); [reflexivity|lia]. }
    rewrite Hone in *. simpl. rewrite IH by lia. lia.
Qed.

End StartsFacts.

Section NullableFacts.
Import syntax regexp Occurrences.

Variable b : list byte.

Implicit Types (pos e : nat) (re : syntax.Regexp).

Lemma loop_self (body : nat -> list nat) greedy fuel pos :
  In pos (loop body greedy fuel pos).
Proof.
  destruct fuel as [|fuel]; [left; reflexivity|]. simpl.
  destruct greedy; [apply in_or_app; right|]; left; reflexivity.
Qed.

Lemma loop_ge (body : nat -> list nat) greedy fuel :
  forall pos e, In e (loop body greedy fuel pos) -> (pos <= e)%nat.
Proof.
  induction fuel as [|fuel IH]; intros pos e He.
  - destruct He as [<-|[]]. lia.
  - simpl in He.
    assert (In e (flat_map (loop body greedy fuel)
                    (List.filter (fun p => (pos <? p)%nat) (body pos)))
            \/ e = pos) as [Hagain| ->]; [| |lia].
    { destruct greedy.
      - apply in_app_or in He. destruct He as [He|[<-|[]]]; auto.
      - destruct He as [<-|He]; auto. }
    apply in_flat_map in Hagain. destruct Hagain as (p & Hp & Hloop).
    apply filter_In in Hp. destruct Hp as [_ Hlt]. apply Nat.ltb_lt in Hlt.
    specialize (IH p e Hloop). lia.
Qed.

(** A regexp has an empty match at a position exactly when it is nullable,
    whatever the text. *)
Lemma empty_match_nullable re : forall pos, In pos (run b re pos) <-> nullable re = true.
Proof.
  induction re as [| |c| |sub IH|greedy sub IH|greedy sub IH|greedy sub IH
                  |sub1 IH1 sub2 IH2|sub1 IH1 sub2 IH2]; intros pos; cbn [run nullable].
  - split; [intros []|discriminate].
  - split; [reflexivity|left; reflexivity].
  - split; [|discriminate]. destruct (step b pos) as [r width].
    destruct (Nat.ltb_spec 0 width); [|intros []].
    destruct (r =? _); [|intros []]. intros [Heq|[]]. lia.
  - split; [|discriminate]. destruct (step b pos) as [r width].
    destruct (Nat.ltb_spec 0 width); [|intros []].
    destruct (negb _); [|intros []]. intros [Heq|[]]. lia.
  - apply IH.
  - split; [reflexivity|]. intros _. apply loop_self.
  - rewrite <- (IH pos), in_flat_map. split.
    + intros (p & Hp & Hloop).
      pose proof (starts_ge b _ _ (run_on_chain b sub pos p Hp)).
      pose proof (loop_ge _ _ _ _ _ Hloop).
      replace pos with p at 1 by lia. exact Hp.
    + intros Hsub. exists pos. split; [exact Hsub|apply loop_self].
  - split; [reflexivity|]. intros _.
    destruct greedy; [apply in_or_app; right|]; left; reflexivity.
  - rewrite andb_true_iff, <- (IH1 pos), <- (IH2 pos), in_flat_map. split.
    + intros (p & Hp & Hsub2).
      pose proof (starts_ge b _ _ (run_on_chain b sub1 pos p Hp)).
      pose proof (starts_ge b _ _ (run_on_chain b sub2 p pos Hsub2)).
      assert (p = pos) as -> by lia. split; assumption.
    + intros [H1 H2]. exists pos. split; assumption.
  - rewrite orb_true_iff, <- (IH1 pos), <- (IH2 pos), in_app_iff. reflexivity.
Qed.

End NullableFacts.

Section FuelFacts.
Import syntax regexp Occurrences.

Variables (re : syntax.Regexp) (b : list byte).

Implicit Types (pos e fuel : nat).

Lemma starts_max pos e : In e (starts b pos) -> (e <= Nat.max pos (length b))%nat.
Proof.
  intros He. destruct (Nat.le_gt_cases pos (length b)) as [Hin|Hout].
  - pose proof (starts_le b pos e Hin He). lia.
  - rewrite starts_unfold, step_end in He by lia. destruct He as [<-|[]]. lia.
Qed.

(** The fuel that [run] hands to the loop of a [*] is enough: more of it
    changes nothing. *)
Lemma run_star_fuel greedy (sub : syntax.Regexp) pos fuel :
  (length b - pos < fuel)%nat ->
  run b (OpStar greedy sub) pos = loop (run b sub) greedy fuel pos.
Proof.
  intros Hfuel. cbn [run]. apply (loop_fuel b); [|lia|exact Hfuel].
  intros p e He. apply starts_max, (run_on_chain b sub), He.
Qed.

(** A regexp that is not nullable only has matches that move forward, so
    the loop of a parsed [*] or [+] drops no round of its operand. *)
Lemma run_progress pos e :
  nullable re = false -> In e (run b re pos) -> (pos < e)%nat.
Proof.
  intros Hnull He. pose proof (starts_ge b _ _ (run_on_chain b re pos e He)) as Hge.
  destruct (Nat.eq_dec e pos) as [->|Hne]; [|lia].
  apply (empty_match_nullable b re pos) in He. congruence.
Qed.

(** A regexp of the fragment matches the empty string exactly when it is
    nullable. *)
Lemma nullable_Matches pos :
  (pos <= length b)%nat -> Matches b re pos pos <-> nullable re = true.
Proof.
  intros Hpos. rewrite <- (empty_match_nullable b re pos). symmetry.
  apply run_Matches, Hpos.
Qed.

End FuelFacts.

(** The engine of the quoted texts searches as the package documents. *)
Lemma quoting_Leftmost : Occurrences.Leftmost Scenarios.quoting.
Proof.
  split.
  - intros p b pos m0 m1 Hpos Hfound. apply (leftmost_found b p pos m0 m1 Hpos Hfound).
  - intros p b pos Hpos Hnone. apply (leftmost_nothing b p pos Hpos Hnone).
Qed.

Section DeliveryFacts.
Import syntax regexp Occurrences.

Context {E : Engine}.
Variables (re : Regexp E) (b : list byte).

Implicit Types (pos i j fuel : nat) (count prev : Z) (l : list (nat * nat)).

(** No more than [n - i] matches are delivered, whatever the engine
    reports. *)
Lemma allMatches_loop_length n fuel :
  forall pos count prev,
    (length (allMatches_loop re b n fuel pos count prev) <= Z.to_nat (n - count))%nat.
Proof.
  induction fuel as [|fuel IH]; intros pos count prev; [simpl; lia|].
  cbn [allMatches_loop].
  destruct ((count <? n) && (pos <=? length b)%nat) eqn:Hcond; [|simpl; lia].
  apply andb_true_iff in Hcond. destruct Hcond as [Hcount _]. apply Z.ltb_lt in Hcount.
  destruct (doExecute re b pos) as [[m0 m1]|]; [|simpl; lia].
  cbv zeta. destruct (negb _).
  - cbn [length].
    match goal with
    | |- (S (length (allMatches_loop _ _ _ _ ?p ?c ?e)) <= _)%nat =>
        pose proof (IH p c e)
    end. lia.
  - match goal with
    | |- (length (allMatches_loop _ _ _ _ ?p ?c ?e) <= _)%nat =>
        pose proof (IH p c e)
    end. lia.
Qed.

Lemma allMatches_loop_outside n fuel pos count prev :
  (length b < pos)%nat -> allMatches_loop re b n fuel pos count prev = [].
Proof.
  intros Hpos. destruct fuel as [|fuel]; [reflexivity|]. simpl.
  destruct (Nat.leb_spec pos (length b)); [lia|].
  rewrite andb_false_r. reflexivity.
Qed.

(** The rounds left: a round that delivers adds one to the count, any
    other moves [pos] forward. *)
Let rounds (n : Z) pos count : nat :=
  (Z.to_nat (n - count) * (length b + 2) + (length b + 1 - pos))%nat.

(** The fuel never runs out, whatever the engine reports: more of it
    changes nothing. *)
Lemma allMatches_loop_fuel n fuel1 :
  forall fuel2 pos count prev,
    (rounds n pos count < fuel1)%nat -> (rounds n pos count < fuel2)%nat ->
    allMatches_loop re b n fuel1 pos count prev
    = allMatches_loop re b n fuel2 pos count prev.
Proof.
  induction fuel1 as [|fuel1 IH]; intros fuel2 pos count prev Hfuel1 Hfuel2; [lia|].
  destruct fuel2 as [|fuel2]; [lia|].
  cbn [allMatches_loop].
  destruct ((count <? n) && (pos <=? length b)%nat) eqn:Hcond; [|reflexivity].
  apply andb_true_iff in Hcond. destruct Hcond as [Hcount Hpos].
  apply Z.ltb_lt in Hcount. apply Nat.leb_le in Hpos.
  destruct (doExecute re b pos) as [[m0 m1]|]; [|reflexivity].
  cbv zeta.
  assert (forall pos' prev',
            allMatches_loop re b n fuel1 pos' (count + 1) prev'
            = allMatches_loop re b n fuel2 pos' (count + 1) prev') as Hmore.
  { intros pos' prev'. apply IH; unfold rounds in *.
    - replace (Z.to_nat (n - count)) with (S (Z.to_nat (n - (count + 1)))) in Hfuel1 by lia.
      simpl in Hfuel1. lia.
    - replace (Z.to_nat (n - count)) with (S (Z.to_nat (n - (count + 1)))) in Hfuel2 by lia.
      simpl in Hfuel2. lia. }
  assert (forall pos' prev', (pos < pos')%nat ->
            allMatches_loop re b n fuel1 pos' count prev'
            = allMatches_loop re b n fuel2 pos' count prev') as Hon.
  { intros pos' prev' Hlt. apply IH; unfold rounds in *; lia. }
  destruct (negb _) eqn:Haccept.
  - rewrite Hmore. reflexivity.
  - apply negb_false_iff, andb_true_iff in Haccept. destruct Haccept as [Hempty _].
    rewrite Hempty. apply Hon. destruct (Nat.ltb_spec 0 (snd (step b pos))); lia.
Qed.

(** The search reports the leftmost match, as [Occurrences.Leftmost] asks
    of the engine and as the search of the fragment does. *)
Hypothesis found : forall pos m0 m1,
  (pos <= length b)%nat ->
  doExecute re b pos = Some (m0, m1) ->
  In m0 (starts b pos) /\ In m1 (starts b m0) /\ matched re b m0 m1
  /\ forall i j, In i (starts b pos) -> (i < m0)%nat -> ~ matched re b i j.

Hypothesis nothing : forall pos,
  (pos <= length b)%nat ->
  doExecute re b pos = None ->
  forall i j, In i (starts b pos) -> ~ matched re b i j.

(** The bound [FindAll] passes for [n = -1]. *)
Let n : Z := Z.of_nat (length b) + 1.

(** Where the loop goes after an empty match at [pos]. *)
Let past pos : nat :=
  if (0 <? snd (step b pos))%nat
  then (pos + snd (step b pos))%nat else (length b + 1)%nat.

(** [l] lists the matches that start at a rune from [pos] on, or after
    [pos], and they do not overlap. *)
Let lists pos l : Prop :=
  (forall i j, In (i, j) l <-> In i (starts b pos) /\ matched re b i j)
  /\ separated l = true.

Let lists_after pos l : Prop :=
  (forall i j, In (i, j) l <->
               In i (starts b pos) /\ (pos < i)%nat /\ matched re b i j)
  /\ separated l = true.

Lemma allMatches_loop_round fuel pos count prev :
  (pos <= length b)%nat -> count <= Z.of_nat pos ->
  allMatches_loop re b n (S fuel) pos count prev =
  match doExecute re b pos with
  | None => []
  | Some (m0, m1) =>
      let accept := negb ((m1 =? pos)%nat && (Z.of_nat m0 =? prev)) in
      let rest :=
        allMatches_loop re b n fuel (if (m1 =? pos)%nat then past pos else m1)
          (if accept then count + 1 else count) (Z.of_nat m1) in
      if accept then (m0, m1) :: rest else rest
  end.
Proof.
  intros Hpos Hcount. cbn [allMatches_loop].
  destruct (Z.ltb_spec count n); [|unfold n in *; lia].
  destruct (Nat.leb_spec pos (length b)); [|lia].
  reflexivity.
Qed.

(** The match the search reports is the first of the list. *)
Lemma lists_head pos m0 m1 l :
  (pos <= length b)%nat ->
  doExecute re b pos = Some (m0, m1) ->
  lists pos l ->
  exists l', l = (m0, m1) :: l'
             /\ separated l' = true
             /\ (forall o, In o l' -> apart (m0, m1) o = true)
             /\ (forall i j, In (i, j) l' <->
                             In i (starts b pos) /\ (m0 < i)%nat /\ matched re b i j).
Proof.
  intros Hpos Hfound [Hin Hsep].
  destruct (found pos m0 m1 Hpos Hfound) as (Hm0 & Hm1 & Hm & Hleft).
  assert (In (m0, m1) l) as Hhead by (apply Hin; split; assumption).
  destruct l as [|[i0 j0] l']; [destruct Hhead|].
  apply separated_cons in Hsep. destruct Hsep as [Hsep' Hall].
  assert ((i0, j0) = (m0, m1)) as Heq.
  { destruct Hhead as [Heq|Hlater]; [exact Heq|]. exfalso.
    specialize (Hall _ Hlater). apply apart_spec in Hall. simpl in Hall.
    destruct (proj1 (Hin i0 j0) ltac:(left; reflexivity)) as [Hi0 Hm0'].
    apply (Hleft i0 j0 Hi0 ltac:(lia) Hm0'). }
  injection Heq as -> ->.
  exists l'. split; [reflexivity|]. split; [exact Hsep'|]. split; [exact Hall|].
  intros i j. split.
  - intros Hl'. pose proof (Hall _ Hl') as Hap. apply apart_spec in Hap. simpl in Hap.
    destruct (proj1 (Hin i j) ltac:(right; exact Hl')) as [Hi Hij].
    split; [exact Hi|]. split; [lia|exact Hij].
  - intros (Hi & Hlt & Hij).
    destruct (proj2 (Hin i j) (conj Hi Hij)) as [Heq|Hl']; [|exact Hl'].
    injection Heq as -> ->. lia.
Qed.

(** With matches that do not overlap the loop delivers, from [pos] on,
    the matches from [pos] on: [prev] is the end of the match before, and
    no empty match sits at it. *)
Lemma allMatches_loop_delivers fuel :
  forall pos count prev l,
    (length b + 1 - pos <= fuel)%nat ->
    (pos <= length b)%nat ->
    count <= Z.of_nat pos ->
    lists pos l ->
    (prev = Z.of_nat pos -> ~ matched re b pos pos) ->
    allMatches_loop re b n fuel pos count prev = l.
Proof.
  induction fuel as [fuel IH] using lt_wf_ind.
  intros pos count prev l Hfuel Hpos Hcount Hl Hprev.
  destruct fuel as [|fuel]; [lia|].
  (* What follows an empty match at [p]. *)
  assert (forall f p count' l',
            (f < S fuel)%nat -> (length b - p <= f)%nat -> (p <= length b)%nat ->
            count' <= Z.of_nat p + 1 ->
            lists_after p l' ->
            allMatches_loop re b n f (past p) count' (Z.of_nat p) = l')
    as Hafter.
  { intros f p count' l' Hf Hfp Hp Hcount' [Hin' Hsep']. unfold past.
    destruct (Nat.ltb_spec 0 (snd (step b p))) as [Hw|Hw].
    - destruct (Nat.le_gt_cases (length b) p) as [Hend|Hin].
      + rewrite step_end in Hw by exact Hend. simpl in Hw. lia.
      + destruct (step_width b p Hin).
        apply IH; [exact Hf|lia|lia|lia| |lia].
        split; [|exact Hsep']. intros i j. rewrite Hin'. split.
        * intros (Hi & Hlt & Hij). split; [|exact Hij].
          rewrite starts_unfold in Hi. destruct Hi as [<-|Hi]; [lia|].
          destruct (Nat.ltb_spec 0 (snd (step b p))); [exact Hi|lia].
        * intros (Hi & Hij). pose proof (starts_ge b _ _ Hi).
          split; [apply starts_next; assumption|]. split; [lia|exact Hij].
    - rewrite allMatches_loop_outside by lia.
      destruct l' as [|[i j] l']; [reflexivity|]. exfalso.
      destruct (proj1 (Hin' i j) ltac:(left; reflexivity)) as (Hi & Hlt & _).
      rewrite starts_unfold in Hi. destruct Hi as [<-|Hi]; [lia|].
      destruct (Nat.ltb_spec 0 (snd (step b p))); [lia|destruct Hi]. }
  rewrite allMatches_loop_round by assumption.
  destruct (doExecute re b pos) as [[m0 m1]|] eqn:Hfound.
  - destruct (found pos m0 m1 Hpos Hfound) as (Hm0 & Hm1 & Hm & Hleft).
    destruct (lists_head pos m0 m1 l Hpos Hfound Hl)
      as (l' & -> & Hsep' & Hall & Hin').
    pose proof (starts_ge b _ _ Hm0) as Hposm0.
    pose proof (starts_ge b _ _ Hm1) as Hm0m1.
    pose proof (starts_le b pos m0 Hpos Hm0) as Hm0len.
    pose proof (starts_le b m0 m1 Hm0len Hm1) as Hm1len.
    cbv zeta.
    destruct (Nat.eqb_spec m1 pos) as [->|Hne].
    + (* an empty match at [pos] itself *)
      assert (m0 = pos) as -> by lia.
      assert (prev <> Z.of_nat pos) as Hnew.
      { intros ->. apply Hprev; [reflexivity|exact Hm]. }
      destruct (Z.eqb_spec (Z.of_nat pos) prev) as [Heq'|_]; [congruence|].
      simpl. f_equal. apply Hafter; [lia|lia|exact Hpos|lia|].
      split; [exact Hin'|exact Hsep'].
    + rewrite andb_false_l. simpl. f_equal.
      assert (In m1 (starts b pos)) as Hm1pos by (apply (starts_trans b pos m0); assumption).
      destruct (starts_split b pos m1 Hm1pos) as (pre & Hpre & Hbefore).
      assert (forall i, In i (starts b pos) -> (m1 <= i)%nat -> In i (starts b m1))
        as Hfrom.
      { intros i Hi Hle. rewrite Hpre in Hi. apply in_app_or in Hi.
        destruct Hi as [Hi|Hi]; [|exact Hi]. specialize (Hbefore i Hi). lia. }
      destruct (Nat.eq_dec m0 m1) as [->|Hlong].
      * (* an empty match further on: the next round finds it again and
           passes over it *)
        destruct fuel as [|fuel]; [lia|].
        rewrite allMatches_loop_round by lia.
        destruct (doExecute re b m1) as [[a c]|] eqn:Hagain.
        -- destruct (found m1 a c Hm1len Hagain) as (Ha & Hc & Hac & Hleft').
           pose proof (starts_ge b _ _ Ha) as Hm1a.
           assert (a = m1) as ->.
           { destruct (Nat.eq_dec a m1) as [|Hfar]; [assumption|]. exfalso.
             apply (Hleft' m1 m1 (starts_self b m1) ltac:(lia) Hm). }
           assert (c = m1) as ->.
           { pose proof (starts_ge b _ _ Hc).
             destruct (Nat.eq_dec c m1) as [|Hfar]; [assumption|]. exfalso.
             assert (In (m1, c) l') as Hl'.
             { specialize (proj2 (proj1 Hl m1 c) (conj Hm0 Hac)) as [Heq|Hin2];
                 [injection Heq; lia|exact Hin2]. }
             specialize (Hall _ Hl'). apply apart_spec in Hall. simpl in Hall. lia. }
           cbv zeta. rewrite Nat.eqb_refl, Z.eqb_refl. simpl.
           apply Hafter; [lia|lia|exact Hm1len|lia|].
           split; [|exact Hsep']. intros i j. rewrite Hin'. split.
           ++ intros (Hi & Hlt & Hij). split; [apply Hfrom; [exact Hi|lia]|].
              split; [lia|exact Hij].
           ++ intros (Hi & Hlt & Hij).
              split; [apply (starts_trans b pos m1); assumption|]. split; [lia|exact Hij].
        -- exfalso. apply (nothing m1 Hm1len Hagain m1 m1 (starts_self b m1) Hm).
      * (* a match that is not empty: on from its end *)
        apply IH; [lia|lia|exact Hm1len|lia| |].
        -- split; [|exact Hsep']. intros i j. rewrite Hin'. split.
           ++ intros (Hi & Hlt & Hij). split; [|exact Hij]. apply Hfrom; [exact Hi|].
              assert (In (i, j) l') as Hl' by (apply Hin'; auto).
              specialize (Hall _ Hl'). apply apart_spec in Hall. simpl in Hall. lia.
           ++ intros (Hi & Hij). pose proof (starts_ge b _ _ Hi).
              split; [apply (starts_trans b pos m1); assumption|]. split; [lia|exact Hij].
        -- intros _ Hempty.
           assert (In (m1, m1) l') as Hl'.
           { apply Hin'. split; [exact Hm1pos|]. split; [lia|exact Hempty]. }
           specialize (Hall _ Hl'). apply apart_spec in Hall. simpl in Hall. lia.
  - destruct l as [|[i j] l]; [reflexivity|]. exfalso.
    destruct (proj1 (proj1 Hl i j) ltac:(left; reflexivity)) as [Hi Hij].
    apply (nothing pos Hpos Hfound i j Hi Hij).
Qed.

(** With occurrences that do not overlap, [allMatches] delivers exactly
    them. *)
Lemma allMatches_delivers l :
  (forall i j, In (i, j) l <-> occurs re b i j) ->
  separated l = true ->
  allMatches re b n = l.
Proof.
  intros Hin Hsep. unfold allMatches.
  apply allMatches_loop_delivers; [nia|lia|lia|split; assumption|lia].
Qed.

(** [allMatches] delivers nothing exactly when there is no occurrence. *)
Lemma allMatches_nothing :
  allMatches re b n = [] <-> forall i j, ~ occurs re b i j.
Proof.
  unfold allMatches.
  replace ((Z.to_nat n + 1) * (length b + 2))%nat
    with (S ((Z.to_nat n + 1) * (length b + 2) - 1)) by nia.
  rewrite allMatches_loop_round by lia.
  destruct (doExecute re b 0) as [[m0 m1]|] eqn:Hfound.
  - destruct (found 0%nat m0 m1 ltac:(lia) Hfound) as (Hm0 & _ & Hm & _).
    cbv zeta. replace (Z.of_nat m0 =? -1) with false by (symmetry; apply Z.eqb_neq; lia).
    rewrite andb_false_r. simpl. split; [discriminate|].
    intros Hnone. destruct (Hnone m0 m1 (conj Hm0 Hm)).
  - split; [|reflexivity]. intros _ i j [Hi Hij].
    apply (nothing 0%nat ltac:(lia) Hfound i j Hi Hij).
Qed.

End DeliveryFacts.

Section ParseFacts.
Import syntax.

Let re_ok (re : Regexp) : Prop := loops_progress re = true.

Let item_ok (it : item) : Prop :=
  match it with
  | IRe re => re_ok re
  | ILeftParen | IVerticalBar => True
  end.

Lemma scan_down_ok stack subs :
  Forall item_ok stack -> Forall re_ok subs ->
  Forall re_ok (fst (scan_down stack subs))
  /\ Forall item_ok (snd (scan_down stack subs)).
Proof.
  revert subs. induction stack as [|it stack IH]; intros subs Hstack Hsubs.
  - split; assumption.
  - inversion Hstack as [|? ? Hit Hstack']; subst.
    destruct it as [re| |]; simpl; [|split; assumption..].
    apply IH; [exact Hstack'|]. constructor; assumption.
Qed.

Lemma collapse_ok (op : Regexp -> Regexp -> Regexp) sub subs :
  (forall sub1 sub2, re_ok sub1 -> re_ok sub2 -> re_ok (op sub1 sub2)) ->
  re_ok sub -> Forall re_ok subs -> re_ok (collapse op sub subs).
Proof.
  intros Hop. revert sub. induction subs as [|sub' subs IH]; intros sub Hsub Hsubs.
  - exact Hsub.
  - inversion Hsubs; subst. simpl. apply Hop; [exact Hsub|]. apply IH; assumption.
Qed.

Lemma pair_ok (op : Regexp -> Regexp -> Regexp) :
  op = OpConcat \/ op = OpAlternate ->
  forall sub1 sub2, re_ok sub1 -> re_ok sub2 -> re_ok (op sub1 sub2).
Proof.
  unfold re_ok. intros [-> | ->] sub1 sub2 H1 H2; simpl; rewrite H1, H2; reflexivity.
Qed.

Lemma concat_ok stack : Forall item_ok stack -> Forall item_ok (concat stack).
Proof.
  intros Hstack. unfold concat.
  destruct (scan_down_ok stack [] Hstack ltac:(constructor)) as [Hsubs Hbelow].
  destruct (scan_down stack []) as [[|sub subs] below]; simpl in *.
  - constructor; [reflexivity|exact Hbelow].
  - inversion Hsubs; subst. constructor; [|exact Hbelow].
    apply collapse_ok; [apply pair_ok; left; reflexivity|assumption..].
Qed.

Lemma alternate_ok stack : Forall item_ok stack -> Forall item_ok (alternate stack).
Proof.
  intros Hstack. unfold alternate.
  destruct (scan_down_ok stack [] Hstack ltac:(constructor)) as [Hsubs Hbelow].
  destruct (scan_down stack []) as [[|sub subs] below]; simpl in *.
  - constructor; [reflexivity|exact Hbelow].
  - inversion Hsubs; subst. constructor; [|exact Hbelow].
    apply collapse_ok; [apply pair_ok; right; reflexivity|assumption..].
Qed.

Lemma swapVerticalBar_ok stack :
  Forall item_ok stack -> Forall item_ok (fst (swapVerticalBar stack)).
Proof.
  intros Hstack. unfold swapVerticalBar.
  destruct stack as [|re1 [|[re2| |] below]]; simpl; try exact Hstack.
  inversion Hstack as [|? ? H1 Hrest]; subst. inversion Hrest; subst.
  repeat constructor; assumption.
Qed.

Lemma parseVerticalBar_ok stack :
  Forall item_ok stack -> Forall item_ok (parseVerticalBar stack).
Proof.
  intros Hstack. unfold parseVerticalBar.
  pose proof (swapVerticalBar_ok _ (concat_ok _ Hstack)) as Hswap.
  destruct (swapVerticalBar (concat stack)) as [stack' [|]]; simpl in Hswap.
  - exact Hswap.
  - constructor; [exact I|exact Hswap].
Qed.

Lemma close_alternation_ok stack :
  Forall item_ok stack -> Forall item_ok (close_alternation stack).
Proof.
  intros Hstack. unfold close_alternation.
  pose proof (swapVerticalBar_ok _ (concat_ok _ Hstack)) as Hswap.
  destruct (swapVerticalBar (concat stack)) as [stack' [|]]; simpl in Hswap;
    apply alternate_ok; [|exact Hswap].
  destruct stack' as [|it stack']; [constructor|].
  inversion Hswap; subst. assumption.
Qed.

Lemma parseRightParen_ok stack stack' :
  Forall item_ok stack -> parseRightParen stack = inr stack' -> Forall item_ok stack'.
Proof.
  intros Hstack. unfold parseRightParen.
  pose proof (close_alternation_ok _ Hstack) as Hclose.
  destruct (close_alternation stack) as [|[re1| |] [|[re2| |] below]];
    try discriminate.
  intros [= <-]. inversion Hclose as [|? ? H1 Hrest]; subst. inversion Hrest; subst.
  constructor; assumption.
Qed.

Lemma repeat_ok (op : Regexp -> Regexp) needs_progress lastRepeat stack stack' :
  (forall sub, re_ok sub -> (needs_progress = true -> nullable sub = false) ->
               re_ok (op sub)) ->
  Forall item_ok stack ->
  repeat op needs_progress lastRepeat stack = inr stack' -> Forall item_ok stack'.
Proof.
  intros Hop Hstack. unfold repeat.
  destruct lastRepeat; [discriminate|].
  destruct stack as [|[sub| |] below]; try discriminate.
  inversion Hstack; subst.
  destruct (needs_progress && nullable sub) eqn:Hnull; [discriminate|].
  intros [= <-]. constructor; [|assumption].
  apply Hop; [assumption|]. intros ->. exact Hnull.
Qed.

Lemma loop_op_ok (op : bool -> Regexp -> Regexp) greedy :
  op = OpStar \/ op = OpPlus ->
  forall sub, re_ok sub -> (true = true -> nullable sub = false) -> re_ok (op greedy sub).
Proof.
  unfold re_ok. intros [-> | ->] sub Hsub Hnull; simpl;
    rewrite Hsub, (Hnull eq_refl); reflexivity.
Qed.

Lemma quest_op_ok greedy :
  forall sub, re_ok sub -> (false = true -> nullable sub = false) ->
              re_ok (OpQuest greedy sub).
Proof. intros sub Hsub _. exact Hsub. Qed.

(** The repetitions of [parse_loop], read with or without a [?] after. *)
Lemma parse_loop_ok t :
  forall lastRepeat stack re,
    Forall item_ok stack -> parse_loop t lastRepeat stack = Parsed re -> re_ok re.
Proof.
  remember (String.length t) as len eqn:Hlen. revert t Hlen.
  induction len as [len IHlen] using lt_wf_ind. intros t Hlen.
  assert (forall t1, (String.length t1 < String.length t)%nat ->
            forall lastRepeat stack re,
              Forall item_ok stack -> parse_loop t1 lastRepeat stack = Parsed re ->
              re_ok re) as IH.
  { intros t1 Hlt. apply (IHlen (String.length t1)); [lia|reflexivity]. }
  clear IHlen Hlen len.
  intros lastRepeat stack re Hstack Hparse.
  destruct t as [|c t']; simpl in Hparse.
  - pose proof (close_alternation_ok _ Hstack) as Hclose.
    destruct (close_alternation stack) as [|[re'| |] [|]]; try discriminate.
    injection Hparse as <-. inversion Hclose; subst. assumption.
  - assert (forall (op : bool -> Regexp -> Regexp) needs_progress,
              (forall greedy sub, re_ok sub ->
                                  (needs_progress = true -> nullable sub = false) ->
                                  re_ok (op greedy sub)) ->
              match t' with
              | String "?" t'' =>
                  match repeat (op false) needs_progress lastRepeat stack with
                  | inl r => r
                  | inr stack' => parse_loop t'' true stack'
                  end
              | _ =>
                  match repeat (op true) needs_progress lastRepeat stack with
                  | inl r => r
                  | inr stack' => parse_loop t' true stack'
                  end
              end = Parsed re -> re_ok re) as Hrep.
    { intros op needs_progress Hop Hrep.
      assert (forall greedy t1,
                (String.length t1 < String.length (String c t'))%nat ->
                match repeat (op greedy) needs_progress lastRepeat stack with
                | inl r => r
                | inr stack' => parse_loop t1 true stack'
                end = Parsed re -> re_ok re) as Hone.
      { intros greedy t1 Hlen Hone.
        destruct (repeat (op greedy) needs_progress lastRepeat stack)
          as [r|stack'] eqn:Hr.
        - subst r. unfold repeat in Hr. destruct lastRepeat; [discriminate|].
          destruct stack as [|[sub| |] below]; try discriminate.
          destruct (needs_progress && nullable sub); discriminate.
        - apply (IH t1 Hlen true stack' re); [|exact Hone].
          apply (repeat_ok _ _ _ _ _ (Hop greedy) Hstack Hr). }
      destruct t' as [|c' t'']; [apply (Hone true EmptyString); [simpl; lia|exact Hrep]|].
      destruct (Ascii.eqb_spec c' "?") as [->|Hne].
      - apply (Hone false t''); [simpl; lia|exact Hrep].
      - apply (Hone true (String c' t'')); [simpl; lia|].
        destruct c' as [[|] [|] [|] [|] [|] [|] [|] [|]]; try exact Hrep.
        exfalso. apply Hne. reflexivity. }
    destruct (Ascii.eqb c "(").
    { destruct t' as [|c' t''].
      - apply (IH EmptyString ltac:(simpl; lia) false (ILeftParen :: stack) re);
          [constructor; [exact I|exact Hstack]|exact Hparse].
      - assert (parse_loop (String c' t'') false (ILeftParen :: stack) = Parsed re)
          as Hparse'.
        { destruct c' as [[|] [|] [|] [|] [|] [|] [|] [|]];
            first [exact Hparse | discriminate]. }
        apply (IH (String c' t'') ltac:(simpl; lia) false (ILeftParen :: stack) re);
          [constructor; [exact I|exact Hstack]|exact Hparse']. }
    destruct (Ascii.eqb c "|").
    { apply (IH t' ltac:(simpl; lia) false _ re (parseVerticalBar_ok _ Hstack) Hparse). }
    destruct (Ascii.eqb c ")").
    { destruct (parseRightParen stack) as [code|stack'] eqn:Hparen; [discriminate|].
      apply (IH t' ltac:(simpl; lia) false stack' re); [|exact Hparse].
      apply (parseRightParen_ok _ _ Hstack Hparen). }
    destruct (Ascii.eqb c ".").
    { apply (IH t' ltac:(simpl; lia) false (IRe OpAnyCharNotNL :: stack) re);
        [|exact Hparse].
      constructor; [reflexivity|exact Hstack]. }
    destruct (Ascii.eqb c "*").
    { apply (Hrep OpStar true); [|exact Hparse].
      intros greedy. apply loop_op_ok. left. reflexivity. }
    destruct (Ascii.eqb c "+").
    { apply (Hrep OpPlus true); [|exact Hparse].
      intros greedy. apply loop_op_ok. right. reflexivity. }
    destruct (Ascii.eqb c "?").
    { apply (Hrep OpQuest false); [|exact Hparse]. intros greedy. apply quest_op_ok. }
    destruct (outside c); [discriminate|].
    apply (IH t' ltac:(simpl; lia) false (IRe (OpLiteral c) :: stack) re);
      [|exact Hparse].
    constructor; [reflexivity|exact Hstack].
Qed.

(** Every [*] and [+] of a parsed regexp has an operand that cannot match
    the empty string. *)
Lemma Parse_loops_progress (s : string) (re : Regexp) :
  Parse s = Parsed re -> loops_progress re = true.
Proof. intros Hparse. apply (parse_loop_ok s false [] re); [constructor|exact Hparse]. Qed.

End ParseFacts.

Section EnumerationFacts.
Import syntax regexp Occurrences.

Variables (re : syntax.Regexp) (b : list byte).

(** The occurrences of a regexp of the fragment can be listed: the starts
    of the runes, each with the ends the matcher finds from it. *)
Definition occurrences : list (nat * nat) :=
  flat_map (fun i => map (pair i) (run b re i)) (starts b 0).

Lemma occurrences_Matches i j :
  In (i, j) occurrences <-> In i (starts b 0) /\ Matches b re i j.
Proof.
  unfold occurrences. rewrite in_flat_map. split.
  - intros (s & Hs & Hin). apply in_map_iff in Hin.
    destruct Hin as (e & [= <- <-] & He). split; [exact Hs|].
    apply run_sound, He.
  - intros [Hi Hij]. exists i. split; [exact Hi|]. apply in_map.
    apply run_complete; [exact Hij|].
    apply (starts_le b 0 i); [lia|exact Hi].
Qed.

End EnumerationFacts.

Section HasMatchesFacts.
Import syntax regexp Occurrences.

Context {E : Engine}.

Implicit Types (re : Regexp E) (b data : list byte).

Lemma MustCompile_Returns (str : string) re :
  MustCompile E str = Returns re <-> Compile E str = Some re.
Proof.
  unfold MustCompile. destruct (Compile E str); split; congruence.
Qed.

Lemma MustCompile_Panics (str : string) :
  MustCompile E str = Panics <-> Compile E str = None.
Proof.
  unfold MustCompile. destruct (Compile E str); split; congruence.
Qed.

(** What [HasMatches] returns for a regexp that compiles. *)
Lemma HasMatches_Returns (m : LogMetric) re data :
  MustCompile E (RegEx m) = Returns re ->
  HasMatches E m data
  = Returns (Z.of_nat (length (allMatches re data (Z.of_nat (length data) + 1)))).
Proof.
  intros Hre. unfold HasMatches. rewrite Hre. unfold FindAll.
  change (-1 <? 0) with true. cbv iota. rewrite length_map. reflexivity.
Qed.

(** The fuel [allMatches] starts with is enough, whatever the engine. *)
Lemma allMatches_fuel re b (n : Z) fuel :
  ((Z.to_nat n + 1) * (length b + 2) <= fuel)%nat ->
  allMatches_loop re b n fuel 0 0 (-1) = allMatches re b n.
Proof.
  intros Hfuel. unfold allMatches. apply allMatches_loop_fuel.
  - replace (n - 0) with n by lia. nia.
  - replace (n - 0) with n by lia. nia.
Qed.

(** [FindAll] with [n = -1] returns at most one match per position, the
    end of the data included, whatever the engine reports. *)
Lemma allMatches_length re b :
  (length (allMatches re b (Z.of_nat (length b) + 1)) <= length b + 1)%nat.
Proof.
  unfold allMatches.
  match goal with
  | |- (length (allMatches_loop _ _ ?n ?f _ _ _) <= _)%nat =>
      pose proof (allMatches_loop_length re b n f 0 0 (-1))
  end. lia.
Qed.

(** The search behind a compiled regexp reports the leftmost match: the
    search of the fragment does, and the engine is asked to when the
    regexp is one of its own. *)
Definition searches re : Prop := forall p, re = Beyond p -> Leftmost E.

Lemma Modelled_searches (r : syntax.Regexp) : searches (Modelled r).
Proof. intros p Hp. discriminate Hp. Qed.

Lemma doExecute_found re b :
  searches re ->
  forall pos m0 m1,
    (pos <= length b)%nat ->
    doExecute re b pos = Some (m0, m1) ->
    In m0 (starts b pos) /\ In m1 (starts b m0) /\ matched re b m0 m1
    /\ forall i j, In i (starts b pos) -> (i < m0)%nat -> ~ matched re b i j.
Proof.
  intros L pos m0 m1 Hpos. destruct re as [r|p]; cbn [doExecute matched].
  - apply leftmost_found, Hpos.
  - apply (execute_found E (L p eq_refl)), Hpos.
Qed.

Lemma doExecute_nothing re b :
  searches re ->
  forall pos,
    (pos <= length b)%nat ->
    doExecute re b pos = None ->
    forall i j, In i (starts b pos) -> ~ matched re b i j.
Proof.
  intros L pos Hpos. destruct re as [r|p]; cbn [doExecute matched].
  - apply leftmost_nothing, Hpos.
  - apply (execute_nothing E (L p eq_refl)), Hpos.
Qed.

(** On the empty text the only start is 0 and the only match the empty
    one: [allMatches] delivers it when there is one. *)
Lemma allMatches_empty_text re :
  searches re ->
  (occurs re [] 0 0 -> allMatches re [] 1 = [(0, 0)%nat])
  /\ (~ occurs re [] 0 0 -> allMatches re [] 1 = []).
Proof.
  intros L. unfold allMatches.
  change ((Z.to_nat 1 + 1) * (length (@nil byte) + 2))%nat with 4%nat.
  cbn [allMatches_loop length]. simpl (_ && _).
  destruct (doExecute re [] 0) as [[m0 m1]|] eqn:Hfound.
  - destruct (doExecute_found re [] L 0%nat m0 m1 ltac:(simpl; lia) Hfound)
      as (Hm0 & Hm1 & Hm & _).
    destruct Hm0 as [<-|[]]. destruct Hm1 as [<-|[]].
    split; [intros _; reflexivity|].
    intros Hnone. destruct Hnone. split; [left; reflexivity|exact Hm].
  - split; [|reflexivity]. intros [Hi Hm]. exfalso.
    apply (doExecute_nothing re [] L 0%nat ltac:(simpl; lia) Hfound 0%nat 0%nat Hi Hm).
Qed.

End HasMatchesFacts.

(** For a pattern of the fragment the engine plays no part. *)
Lemma allMatches_loop_Modelled (E E' : regexp.Engine) (r : syntax.Regexp)
  (b : list byte) (n : Z) (fuel : nat) :
  forall pos count prev,
    regexp.allMatches_loop (E := E) (regexp.Modelled r) b n fuel pos count prev
    = regexp.allMatches_loop (E := E') (regexp.Modelled r) b n fuel pos count prev.
Proof.
  induction fuel as [|fuel IH]; intros pos count prev; [reflexivity|].
  cbn [regexp.allMatches_loop regexp.doExecute].
  destruct ((count <? n) && (pos <=? length b)%nat); [|reflexivity].
  destruct (regexp.leftmost r b pos) as [[m0 m1]|]; [|reflexivity].
  cbv zeta. rewrite IH. reflexivity.
Qed.

Lemma HasMatches_fragment (E E' : regexp.Engine) (m : LogMetric)
  (data : list byte) :
  syntax.Parse (RegEx m) <> syntax.OutsideFragment ->
  HasMatches E m data = HasMatches E' m data.
Proof.
  intros Hin. unfold HasMatches, regexp.MustCompile, regexp.Compile.
  destruct (syntax.Parse (RegEx m)) as [r|code|]; [|reflexivity|congruence].
  unfold regexp.FindAll, regexp.allMatches. rewrite !length_map.
  rewrite (allMatches_loop_Modelled E E'). reflexivity.
Qed.

(** C9: [HasMatches] panics exactly when the regexp of the metric does
    not compile ([regexp.MustCompile] panics), whatever the data; when it
    compiles, [HasMatches] returns, and the count it returns is not
    negative.  A regexp at which the parser reports an error does not
    compile, whatever the engine. *)
Theorem C9_HasMatches_panics_iff_invalid :
  forall (E : regexp.Engine) (m : LogMetric) (data : list byte),
    (HasMatches E m data = Panics <-> regexp.Compile E (RegEx m) = None)
    /\ (is_Some (regexp.Compile E (RegEx m)) <->
        exists count, HasMatches E m data = Returns count /\ 0 <= count)
    /\ (forall code, syntax.Parse (RegEx m) = syntax.SyntaxError code ->
                     HasMatches E m data = Panics).
Proof.
  intros E m data. split; [|split].
  - unfold HasMatches, regexp.MustCompile.
    destruct (regexp.Compile E (RegEx m)) as [re|]; split; congruence.
  - unfold HasMatches, regexp.MustCompile.
    destruct (regexp.Compile E (RegEx m)) as [re|]; split.
    + intros _. eexists. split; [reflexivity|]. lia.
    + intros _. eexists. reflexivity.
    + intros [re Hre]. discriminate.
    + intros (count & Hcount & _). discriminate.
  - intros code Hcode. unfold HasMatches, regexp.MustCompile, regexp.Compile.
    rewrite Hcode. reflexivity.
Qed.

Lemma C9_HasMatches_witness :
  HasMatches Scenarios.quoting (mkLogMetric "unbalanced" "(error" 9999 (-1))
             (String.list_byte_of_string "error: (none)") = Panics
  /\ HasMatches Scenarios.quoting (mkLogMetric "stacked" "e**" 9999 (-1))
                (String.list_byte_of_string "eee") = Panics
  /\ exists count,
       HasMatches Scenarios.quoting (mkLogMetric "quoted" "\Q[error]" 9999 (-1))
         (String.list_byte_of_string "[error] one; [error] two") = Returns count
       /\ 0 <= count.
Proof.
  split; [|split].
  - apply (C9_HasMatches_panics_iff_invalid Scenarios.quoting
             (mkLogMetric "unbalanced" "(error" 9999 (-1))
             (String.list_byte_of_string "error: (none)")).
    reflexivity.
  - apply (C9_HasMatches_panics_iff_invalid Scenarios.quoting
             (mkLogMetric "stacked" "e**" 9999 (-1))
             (String.list_byte_of_string "eee")).
    reflexivity.
  - apply (C9_HasMatches_panics_iff_invalid Scenarios.quoting
             (mkLogMetric "quoted" "\Q[error]" 9999 (-1))
             (String.list_byte_of_string "[error] one; [error] two")).
    eexists. reflexivity.
Defined.

(** C4 (as stated, refuted): on the empty log text a valid regexp that
    can match the empty string is counted once, not zero times.  The two
    patterns are of the fragment, where the engine plays no part. *)
Lemma C4_empty_text_counted_once :
  regexp.MustCompile Scenarios.quoting " *"
  = Returns (regexp.Modelled (syntax.OpStar true (syntax.OpLiteral " ")))
  /\ HasMatches Scenarios.quoting (mkLogMetric "spaces" " *" 9999 (-1)) [] = Returns 1
  /\ regexp.MustCompile Scenarios.quoting EmptyString
     = Returns (regexp.Modelled syntax.OpEmptyMatch)
  /\ HasMatches Scenarios.quoting (mkLogMetric "blank" EmptyString 9999 (-1)) []
     = Returns 1.
Proof. repeat split. Qed.

(** C4 (amended): for a metric whose regexp is valid, [HasMatches] on the
    empty log text returns 0 when the regexp does not match the empty text
    (and 1 when it does); and on a log text whose occurrences of the
    regexp are exactly [k] and do not overlap (each starts later than the
    one before, not before it has ended, and an empty one not at its very
    end), [HasMatches] returns [k].  For a pattern beyond the fragment the
    engine is asked to search as the package documents. *)
Theorem C4_HasMatches_counts_occurrences :
  forall (E : regexp.Engine) (m : LogMetric) (re : regexp.Regexp E),
    regexp.MustCompile E (RegEx m) = Returns re ->
    (forall p, re = regexp.Beyond p -> Occurrences.Leftmost E) ->
    (Occurrences.occurs re [] 0 0 -> HasMatches E m [] = Returns 1)
    /\ (~ Occurrences.occurs re [] 0 0 -> HasMatches E m [] = Returns 0)
    /\ forall (data : list byte) (occs : list (nat * nat)) (k : nat),
         (forall i j, In (i, j) occs <-> Occurrences.occurs re data i j) ->
         Occurrences.separated occs = true ->
         length occs = k ->
         HasMatches E m data = Returns (Z.of_nat k).
Proof.
  intros E m re Hre L.
  destruct (allMatches_empty_text re L) as [Hone Hzero].
  split; [|split].
  - intros Hocc. rewrite (HasMatches_Returns m re [] Hre).
    change (Z.of_nat (length (@nil byte)) + 1) with 1. rewrite (Hone Hocc). reflexivity.
  - intros Hocc. rewrite (HasMatches_Returns m re [] Hre).
    change (Z.of_nat (length (@nil byte)) + 1) with 1. rewrite (Hzero Hocc). reflexivity.
  - intros data occs k Hin Hsep <-. rewrite (HasMatches_Returns m re data Hre).
    rewrite (allMatches_delivers re data (doExecute_found re data L)
               (doExecute_nothing re data L) occs Hin Hsep).
    reflexivity.
Qed.

Lemma C4_HasMatches_witness :
  HasMatches Scenarios.quoting (mkLogMetric "errors" "error" 9999 (-1)) [] = Returns 0
  /\ HasMatches Scenarios.quoting (mkLogMetric "errors" "error" 9999 (-1))
       (String.list_byte_of_string "error: one; error: two; no err") = Returns 2
  /\ HasMatches Scenarios.quoting (mkLogMetric "quoted" "\Q[error]" 9999 (-1))
       (String.list_byte_of_string "[error] one; [error] two") = Returns 2.
Proof.
  destruct (C4_HasMatches_counts_occurrences Scenarios.quoting
              (mkLogMetric "errors" "error" 9999 (-1)) _
              eq_refl (fun _ _ => quoting_Leftmost)) as (_ & Hempty & Hcount).
  destruct (C4_HasMatches_counts_occurrences Scenarios.quoting
              (mkLogMetric "quoted" "\Q[error]" 9999 (-1)) _
              eq_refl (fun _ _ => quoting_Leftmost)) as (_ & _ & Hquoted).
  split; [|split].
  - apply Hempty. intros [_ Hm].
    apply nullable_Matches in Hm; [discriminate Hm|simpl; lia].
  - apply (Hcount _ [(0, 5); (12, 17)]%nat 2%nat); [|reflexivity|reflexivity].
    intros i j. unfold Occurrences.occurs, Occurrences.matched.
    rewrite <- occurrences_Matches.
    match goal with
    | |- _ <-> In _ ?l =>
        assert (l = [(0, 5); (12, 17)]%nat) as -> by (vm_compute; reflexivity)
    end. reflexivity.
  - apply (Hquoted _ [(0, 7); (13, 20)]%nat 2%nat); [|reflexivity|reflexivity].
    intros i j. unfold Occurrences.occurs, Occurrences.matched.
    cbn [regexp.matches Scenarios.quoting].
    rewrite <- occurrences_Matches.
    match goal with
    | |- _ <-> In _ ?l =>
        assert (l = [(0, 7); (13, 20)]%nat) as -> by (vm_compute; reflexivity)
    end. reflexivity.
Defined.

(** Occurrences that overlap are not all counted: in [abc] the regexp
    [abc|b|c] occurs from 0 to 3, from 1 to 2 and from 2 to 3, and the
    leftmost match, from 0 to 3, covers the two others. *)
Example HasMatches_overlapping :
  regexp.MustCompile Scenarios.quoting "abc|b|c"
  = Returns (regexp.Modelled
      (syntax.OpAlternate
         (syntax.OpConcat (syntax.OpLiteral "a")
            (syntax.OpConcat (syntax.OpLiteral "b") (syntax.OpLiteral "c")))
         (syntax.OpAlternate (syntax.OpLiteral "b") (syntax.OpLiteral "c"))))
  /\ occurrences
       (syntax.OpAlternate
          (syntax.OpConcat (syntax.OpLiteral "a")
             (syntax.OpConcat (syntax.OpLiteral "b") (syntax.OpLiteral "c")))
          (syntax.OpAlternate (syntax.OpLiteral "b") (syntax.OpLiteral "c")))
       (String.list_byte_of_string "abc") = [(0, 3); (1, 2); (2, 3)]%nat
  /\ HasMatches Scenarios.quoting (mkLogMetric "abc" "abc|b|c" 9999 (-1))
       (String.list_byte_of_string "abc") = Returns 1.
Proof. repeat split. Qed.


(* ===================================================================== *)
(** ** Properties of the ResourceBuilder                                  *)
(* ===================================================================== *)

Section ResourceBuilderFacts.
Import accountsmgmt.

Implicit Types (st : Store) (p b : ptr) (pb po : positive) (c : call)
  (r : ResourceBuilder.t) (o : Resource.t).

Local Arguments stringAt : simpl never.
Local Arguments intAt : simpl never.

Lemma fresh_cell st : cells st !! fresh (dom (cells st)) = None.
Proof. apply not_elem_of_dom, is_fresh. Qed.

Lemma fresh_object st : objects st !! fresh (dom (objects st)) = None.
Proof. apply not_elem_of_dom, is_fresh. Qed.

Lemma fresh_builder st : builders st !! fresh (dom (builders st)) = None.
Proof. apply not_elem_of_dom, is_fresh. Qed.

(** A store that only gained variables reads the same through a valid
    pointer. *)
Lemma stringAt_weaken st st' p :
  cells st ⊆ cells st' -> validString st p -> stringAt st' p = stringAt st p.
Proof.
  intros Hsub [->|[s Hs]]; [reflexivity|]. rewrite Hs.
  destruct p as [l|]; [|discriminate]. unfold stringAt in *.
  destruct (cells st !! l) as [[s'|z]|] eqn:Hl; try discriminate.
  rewrite (lookup_weaken _ _ _ _ Hl Hsub). exact Hs.
Qed.

Lemma intAt_weaken st st' p :
  cells st ⊆ cells st' -> validInt st p -> intAt st' p = intAt st p.
Proof.
  intros Hsub [->|[z Hz]]; [reflexivity|]. rewrite Hz.
  destruct p as [l|]; [|discriminate]. unfold intAt in *.
  destruct (cells st !! l) as [[s'|z']|] eqn:Hl; try discriminate.
  rewrite (lookup_weaken _ _ _ _ Hl Hsub). exact Hz.
Qed.

Lemma validString_weaken st st' p :
  cells st ⊆ cells st' -> validString st p -> validString st' p.
Proof.
  intros Hsub Hp. pose proof (stringAt_weaken st st' p Hsub Hp) as Heq.
  destruct Hp as [->|[s Hs]]; [left; reflexivity|].
  right. exists s. rewrite Heq. exact Hs.
Qed.

Lemma validInt_weaken st st' p :
  cells st ⊆ cells st' -> validInt st p -> validInt st' p.
Proof.
  intros Hsub Hp. pose proof (intAt_weaken st st' p Hsub Hp) as Heq.
  destruct Hp as [->|[z Hz]]; [left; reflexivity|].
  right. exists z. rewrite Heq. exact Hz.
Qed.

(** An object that was valid stays valid, with the same attributes, when
    the store only gains variables. *)
Lemma attributes_weaken st st' o :
  cells st ⊆ cells st' -> validObject st o ->
  validObject st' o /\ attributes st' o = attributes st o.
Proof.
  intros Hsub (H1 & H2 & H3 & H4 & H5). split.
  - repeat split; eauto using validString_weaken, validInt_weaken.
  - unfold attributes.
    rewrite !(stringAt_weaken st st') by assumption.
    rewrite (intAt_weaken st st') by assumption. reflexivity.
Qed.

Lemma stringAt_fresh st (s : string) B O :
  stringAt (mkStore (<[fresh (dom (cells st)) := StringCell s]> (cells st)) B O)
           (Some (fresh (dom (cells st)))) = Some s.
Proof. unfold stringAt. simpl. rewrite lookup_insert_eq. reflexivity. Qed.

Lemma intAt_fresh st (z : Z) B O :
  intAt (mkStore (<[fresh (dom (cells st)) := IntCell z]> (cells st)) B O)
        (Some (fresh (dom (cells st)))) = Some z.
Proof. unfold intAt. simpl. rewrite lookup_insert_eq. reflexivity. Qed.

(** A setter called on a builder of the store: it returns its receiver,
    touches this builder only and no variable that was there, and the
    builder then says what it said before but for the attribute set. *)
Lemma invoke_sets pb r c st :
  builders st !! pb = Some r -> validObject st (asObject r) ->
  exists st' r',
    invoke (Some pb) c st = Some (Some pb, st')
    /\ builders st' = <[pb := r']> (builders st)
    /\ objects st' = objects st
    /\ cells st ⊆ cells st'
    /\ validObject st' (asObject r')
    /\ attributes st' (asObject r') = setAttribute (attributes st (asObject r)) c.
Proof.
  intros Hb Hvalid.
  assert (forall v, cells st ⊆ <[fresh (dom (cells st)) := v]> (cells st)) as Hsub
    by (intros v; apply insert_subseteq, fresh_cell).
  destruct c as [v|v|v|v|v|v];
    (eexists _, _; split;
     [unfold invoke, ID, HREF, Link, Allowed, ResourceName, ResourceType,
        mbind, M_bind, mret, M_ret, addressOf, load, store; simpl;
      rewrite Hb; reflexivity|]);
    simpl; (split; [reflexivity|]); (split; [reflexivity|]).
  all: split; [first [reflexivity | apply Hsub]|].
  all: destruct Hvalid as (V1 & V2 & V3 & V4 & V5); simpl in V1, V2, V3, V4, V5.
  all: assert (forall st', cells st ⊆ cells st' ->
                 (forall q, validString st q ->
                            validString st' q /\ stringAt st' q = stringAt st q)
                 /\ (forall q, validInt st q ->
                               validInt st' q /\ intAt st' q = intAt st q)) as Hkeep
    by (intros st' Hst'; split; intros q Hq;
        (split; [eauto using validString_weaken, validInt_weaken
                |eauto using stringAt_weaken, intAt_weaken])).
  all: match goal with
       | |- validObject ?st' _ /\ _ =>
           destruct (Hkeep st' ltac:(first [apply Hsub | reflexivity])) as [Hs Hi]
       end.

  all: split;
    [ repeat split; simpl;
      first [ apply Hs; assumption | apply Hi; assumption
            | right; eexists; first [apply stringAt_fresh | apply intAt_fresh] ]
    | unfold attributes, setAttribute; simpl;
      rewrite ?stringAt_fresh, ?intAt_fresh;
      f_equal;
      first [ reflexivity | apply Hs; assumption | apply Hi; assumption ] ].
Qed.

(** A chain of setter calls on a builder of the store. *)
Lemma chain_sets calls : forall pb r st,
  builders st !! pb = Some r -> validObject st (asObject r) ->
  exists st' r',
    chain (Some pb) calls st = Some (Some pb, st')
    /\ builders st' = <[pb := r']> (builders st)
    /\ objects st' = objects st
    /\ cells st ⊆ cells st'
    /\ validObject st' (asObject r')
    /\ attributes st' (asObject r')
       = fold_left setAttribute calls (attributes st (asObject r)).
Proof.
  induction calls as [|c calls IH]; intros pb r st Hb Hvalid.
  - exists st, r. repeat split; try reflexivity; try apply Hvalid.
    symmetry. apply insert_id, Hb.
  - destruct (invoke_sets pb r c st Hb Hvalid)
      as (st1 & r1 & Hcall & Hb1 & Ho1 & Hc1 & Hv1 & Ha1).
    destruct (IH pb r1 st1 ltac:(rewrite Hb1; apply lookup_insert_eq) Hv1)
      as (st2 & r2 & Hchain & Hb2 & Ho2 & Hc2 & Hv2 & Ha2).
    exists st2, r2. split.
    { simpl. unfold mbind, M_bind. rewrite Hcall. exact Hchain. }
    split; [rewrite Hb2, Hb1; apply insert_insert_eq|].
    split; [congruence|].
    split; [etrans; eassumption|].
    split; [exact Hv2|]. simpl. rewrite Ha2, Ha1. reflexivity.
Qed.

(** [Build] on a builder of the store: a new object with the builder's
    fields, pointers shared; no error; nothing else changes. *)
Lemma Build_new pb r st :
  builders st !! pb = Some r ->
  Build (Some pb) st
  = Some ((Some (fresh (dom (objects st))), None),
          mkStore (cells st) (builders st)
            (<[fresh (dom (objects st)) := asObject r]> (objects st))).
Proof.
  intros Hb. unfold Build, mbind, M_bind, mret, M_ret, load, newObject.
  rewrite Hb. destruct r as [i h l [a|] [n|] [t|]]; reflexivity.
Qed.

Lemma Copy_object pb r po o st :
  builders st !! pb = Some r -> objects st !! po = Some o ->
  Copy (Some pb) (Some po) st
  = Some (Some pb,
          mkStore (cells st)
            (<[pb := ResourceBuilder.mk (Resource.id o) (Resource.href o)
                       (Resource.link o) (Resource.allowed o)
                       (Resource.resourceName o) (Resource.resourceType o)]>
               (builders st))
            (objects st)).
Proof.
  intros Hb Ho. unfold Copy, mbind, M_bind, mret, M_ret, loadObject, load, store.
  rewrite Ho, Hb. reflexivity.
Qed.

Lemma NewResource_new st :
  NewResource st
  = Some (Some (fresh (dom (builders st))),
          mkStore (cells st)
            (<[fresh (dom (builders st))
               := ResourceBuilder.mk None None false None None None]> (builders st))
            (objects st)).
Proof. reflexivity. Qed.

(** Whenever a setter returns, it returns its receiver, a builder of the
    store, which alone it has written; the store gained at most a
    variable. *)
Lemma invoke_frame b c st b' st' :
  invoke b c st = Some (b', st') ->
  b' = b /\ objects st' = objects st /\ cells st ⊆ cells st'
  /\ exists pb r r', b = Some pb /\ builders st !! pb = Some r
                     /\ builders st' = <[pb := r']> (builders st).
Proof.
  assert (forall v, cells st ⊆ <[fresh (dom (cells st)) := v]> (cells st)) as Hsub
    by (intros v; apply insert_subseteq, fresh_cell).
  destruct b as [pb|], c as [v|v|v|v|v|v];
    unfold invoke, ID, HREF, Link, Allowed, ResourceName, ResourceType,
      mbind, M_bind, mret, M_ret, addressOf, load, store; simpl;
    try discriminate;
    (destruct (builders st !! pb) as [r|] eqn:Hb; [|discriminate]);
    intros [= <- <-]; simpl;
    (split; [reflexivity|]); (split; [reflexivity|]);
    (split; [first [reflexivity | apply Hsub]|]);
    eexists pb, r, _; repeat split; first [exact Hb | reflexivity].
Qed.

Lemma validObject_unset st :
  validObject st (asObject (ResourceBuilder.mk None None false None None None)).
Proof. repeat split; left; reflexivity. Qed.

End ResourceBuilderFacts.

Section ResourceBuilderTheorems.
Import accountsmgmt.

(** X1: a chain of setter calls on a new builder, then [Build]: no panic,
    no error, and an object that was not there before whose attributes are
    those the calls set, the last call of an attribute winning and the
    attributes never set staying unset; the objects that were there are
    untouched. *)
Theorem Build_after_setters :
  forall (st : Store) (calls : list call),
  exists po st' o,
    (b ← NewResource; b' ← chain b calls; Build b') st
    = Some ((Some po, None), st')
    /\ objects st !! po = None
    /\ objects st' = <[po := o]> (objects st)
    /\ attributes st' o = fold_left setAttribute calls noAttributes.
Proof.
  intros st calls. unfold mbind at 1 2, M_bind.
  rewrite NewResource_new.
  set (pb := fresh (dom (builders st))).
  set (st0 := mkStore _ _ _).
  destruct (chain_sets calls pb _ st0 ltac:(apply lookup_insert_eq)
              (validObject_unset st0))
    as (st1 & r1 & Hchain & Hb1 & Ho1 & Hc1 & Hv1 & Ha1).
  rewrite Hchain, (Build_new pb r1 st1) by (rewrite Hb1; apply lookup_insert_eq).
  eexists _, _, _. split; [reflexivity|]. rewrite Ho1. simpl.
  split; [apply fresh_object|]. split; [reflexivity|].
  exact Ha1.
Qed.

Lemma asObject_of_object (o : Resource.t) :
  asObject (ResourceBuilder.mk (Resource.id o) (Resource.href o) (Resource.link o)
              (Resource.allowed o) (Resource.resourceName o)
              (Resource.resourceType o)) = o.
Proof. destruct o; reflexivity. Qed.

(** X2: [Copy] discards what the builder held: whatever setters were called
    before, [Copy] of an object of the store followed by [Build] gives a
    new object with the very fields of the copied one (the pointers are
    shared), without panic or error, and the copied object stays as it
    was. *)
Theorem Build_after_Copy :
  forall (st : Store) (calls : list call) (po : positive) (o : Resource.t),
    objects st !! po = Some o ->
    exists po' st',
      (b ← NewResource; b1 ← chain b calls; b2 ← Copy b1 (Some po); Build b2) st
      = Some ((Some po', None), st')
      /\ po' <> po
      /\ objects st' = <[po' := o]> (objects st)
      /\ objects st' !! po = Some o.
Proof.
  intros st calls po o Ho. unfold mbind at 1 2 3, M_bind.
  rewrite NewResource_new.
  set (pb := fresh (dom (builders st))).
  set (st0 := mkStore _ _ _).
  destruct (chain_sets calls pb _ st0 ltac:(apply lookup_insert_eq)
              (validObject_unset st0))
    as (st1 & r1 & Hchain & Hb1 & Ho1 & Hc1 & Hv1 & Ha1).
  rewrite Hchain.
  rewrite (Copy_object pb r1 po o st1)
    by (first [rewrite Hb1; apply lookup_insert_eq | rewrite Ho1; exact Ho]).
  erewrite Build_new by (simpl; apply lookup_insert_eq).
  rewrite asObject_of_object. simpl. rewrite Ho1. simpl.
  assert (fresh (dom (objects st)) <> po) as Hne.
  { intros Heq. pose proof (fresh_object st) as Hfresh. rewrite Heq in Hfresh.
    congruence. }
  eexists _, _. split; [reflexivity|]. split; [exact Hne|].
  split; [reflexivity|]. cbn [objects]. rewrite lookup_insert_ne by exact Hne.
  exact Ho.
Qed.

Lemma Build_after_Copy_witness :
  exists po' st',
    (b ← NewResource; b1 ← chain b [CallID "old"; CallLink true];
     b2 ← Copy b1 (Some 1%positive); Build b2) Scenarios.oneResource
    = Some ((Some po', None), st')
    /\ objects st' !! po' = Some Scenarios.keptResource.
Proof.
  destruct (Build_after_Copy Scenarios.oneResource [CallID "old"; CallLink true]
              1%positive Scenarios.keptResource eq_refl)
    as (po' & st' & Hrun & Hne & Hobjects & Hkept).
  exists po', st'. split; [exact Hrun|].
  rewrite Hobjects. apply lookup_insert_eq.
Defined.

(** X3: on a nil receiver every setter and [Build] panic, and so does
    [Copy] of an object; [Copy] of nil returns its receiver, nil or not,
    and changes nothing. *)
Theorem nil_receiver_and_nil_object :
  forall (st : Store),
    (forall c, invoke None c st = None)
    /\ Build None st = None
    /\ (forall po, Copy None (Some po) st = None)
    /\ (forall b, Copy b None st = Some (b, st)).
Proof.
  intros st. repeat split.
  - intros [v|v|v|v|v|v]; reflexivity.
  - intros po. unfold Copy, mbind, M_bind, loadObject.
    destruct (objects st !! po); reflexivity.
Qed.

(** X4: no call changes an object that exists or a variable it points to:
    a setter and [Copy] return their receiver and write that builder only,
    [NewResource] and [Build] add their new builder or object; so every
    valid object of the store keeps its attributes. *)
Theorem objects_never_change :
  forall (st st' : Store) (o : Resource.t),
    validObject st o ->
    (forall b c b', invoke b c st = Some (b', st') ->
       b' = b /\ objects st' = objects st /\ attributes st' o = attributes st o)
    /\ (forall b object b', Copy b object st = Some (b', st') ->
          b' = b /\ objects st' = objects st /\ cells st' = cells st)
    /\ (forall b object e, Build b st = Some ((object, e), st') ->
          e = None /\ objects st ⊆ objects st' /\ cells st' = cells st
          /\ builders st' = builders st)
    /\ (forall b, NewResource st = Some (b, st') ->
          objects st' = objects st /\ cells st' = cells st
          /\ builders st ⊆ builders st').
Proof.
  intros st st' o Hvalid. repeat split.
  - apply (invoke_frame b c st b' st' H).
  - apply (invoke_frame b c st b' st' H).
  - destruct (invoke_frame b c st b' st' H) as (_ & _ & Hsub & _).
    apply (attributes_weaken st st' o Hsub Hvalid).
  - revert H. unfold Copy, mbind, M_bind, mret, M_ret, loadObject, load, store.
    repeat case_match; intros; simplify_eq; reflexivity.
  - revert H. unfold Copy, mbind, M_bind, mret, M_ret, loadObject, load, store.
    repeat case_match; intros; simplify_eq; reflexivity.
  - revert H. unfold Copy, mbind, M_bind, mret, M_ret, loadObject, load, store.
    repeat case_match; intros; simplify_eq; reflexivity.
  - revert H. unfold Build, mbind, M_bind, mret, M_ret, load, newObject.
    repeat case_match; intros; simplify_eq; reflexivity.
  - revert H. unfold Build, mbind, M_bind, mret, M_ret, load, newObject.
    repeat case_match; intros; simplify_eq; simpl;
      apply insert_subseteq, fresh_object.
  - revert H. unfold Build, mbind, M_bind, mret, M_ret, load, newObject.
    repeat case_match; intros; simplify_eq; reflexivity.
  - revert H. unfold Build, mbind, M_bind, mret, M_ret, load, newObject.
    repeat case_match; intros; simplify_eq; reflexivity.
  - rewrite NewResource_new in H. simplify_eq. reflexivity.
  - rewrite NewResource_new in H. simplify_eq. reflexivity.
  - rewrite NewResource_new in H. simplify_eq. simpl.
    apply insert_subseteq, fresh_builder.
Qed.

Lemma objects_never_change_witness :
  exists st',
    invoke (Some 1%positive) (CallID "new") Scenarios.oneBuilder
    = Some (Some 1%positive, st')
    /\ attributes st' Scenarios.keptResource
       = attributes Scenarios.oneBuilder Scenarios.keptResource.
Proof.
  assert (validObject Scenarios.oneBuilder Scenarios.keptResource) as Hvalid.
  { repeat split; first [left; reflexivity | right; eexists; reflexivity]. }
  eexists. split; [reflexivity|].
  apply (proj1 (objects_never_change _ _ _ Hvalid)
           (Some 1%positive) (CallID "new") (Some 1%positive) eq_refl).
Defined.

(** X5: a builder can be used again after [Build]: the object built first
    keeps the attributes it was built with, whatever is set afterwards, and
    the object built second has those of all the calls. *)
Theorem builder_used_again :
  forall (st : Store) (calls1 calls2 : list call),
  exists po1 po2 st' o1 o2,
    (b ← NewResource;
     b1 ← chain b calls1; first ← Build b1;
     b2 ← chain b1 calls2; second ← Build b2;
     mret (fst first, fst second)) st
    = Some ((Some po1, Some po2), st')
    /\ po1 <> po2
    /\ objects st' !! po1 = Some o1
    /\ objects st' !! po2 = Some o2
    /\ attributes st' o1 = fold_left setAttribute calls1 noAttributes
    /\ attributes st' o2 = fold_left setAttribute (calls1 ++ calls2) noAttributes.
Proof.
  intros st calls1 calls2. unfold mbind at 1 2 3 4 5, M_bind.
  rewrite NewResource_new.
  set (pb := fresh (dom (builders st))).
  set (st0 := mkStore _ _ _).
  destruct (chain_sets calls1 pb _ st0 ltac:(apply lookup_insert_eq)
              (validObject_unset st0))
    as (st1 & r1 & Hchain1 & Hb1 & Ho1 & Hc1 & Hv1 & Ha1).
  rewrite Hchain1, (Build_new pb r1 st1) by (rewrite Hb1; apply lookup_insert_eq).
  set (st2 := mkStore _ _ _).
  destruct (chain_sets calls2 pb r1 st2
              ltac:(simpl; rewrite Hb1; apply lookup_insert_eq) Hv1)
    as (st3 & r3 & Hchain2 & Hb3 & Ho3 & Hc3 & Hv3 & Ha3).
  cbn [fst]. rewrite Hchain2.
  rewrite (Build_new pb r3 st3) by (rewrite Hb3; apply lookup_insert_eq).
  set (po1 := fresh (dom (objects st1))) in *.
  set (po2 := fresh (dom (objects st3))).
  assert (objects st3 !! po1 = Some (asObject r1)) as Hfirst
    by (rewrite Ho3; apply lookup_insert_eq).
  assert (po1 <> po2) as Hne.
  { intros Heq. pose proof (fresh_object st3) as Hfresh. fold po2 in Hfresh.
    rewrite <- Heq in Hfresh. congruence. }
  exists po1, po2. eexists _, (asObject r1), (asObject r3).
  split; [reflexivity|]. split; [exact Hne|]. simpl.
  split; [rewrite lookup_insert_ne by (intros ?; apply Hne; congruence); exact Hfirst|].
  split; [apply lookup_insert_eq|].
  split.
  - destruct (attributes_weaken st2 st3 (asObject r1) Hc3 Hv1) as [_ Hkept].
    etrans; [exact Hkept|]. exact Ha1.
  - rewrite fold_left_app. etrans; [exact Ha3|]. f_equal. exact Ha1.
Qed.

End ResourceBuilderTheorems.

(* ===================================================================== *)
(** ** Properties of the Certman specs                                    *)
(* ===================================================================== *)

Section CertmanTheorems.
Import operators certman.

(** Whatever the cluster answers, [secretExists] leaves in [err] the
    very error it returns and in [secrets] the list it got; it answers done
    only without an error and with a first secret, whose name it then
    stores in [secretName]; otherwise [secretName] keeps its value. *)
Theorem secretExists_keeps_err :
  forall (api : Script) (v : Vars),
    let answer := secretExists api v in
    let v' := snd answer in
    err v' = snd (fst answer)
    /\ secrets v' = Some (fst (api (listCalls v)))
    /\ listCalls v' = S (listCalls v)
    /\ (fst (fst answer) = true <->
        snd (api (listCalls v)) = None
        /\ exists first rest,
             Items (fst (api (listCalls v))) = first :: rest
             /\ secretName v' = SecretName first)
    /\ (fst (fst answer) = false -> secretName v' = secretName v).
Proof.
  intros api v. unfold secretExists.
  destruct (api (listCalls v)) as [list [e|]]; simpl.
  - repeat split; try discriminate. intros [? _]. discriminate.
  - destruct (Items list) as [|first rest] eqn:Hitems; simpl.
    + repeat split; try discriminate. intros (_ & ? & ? & ? & _). discriminate.
    + repeat split; try discriminate. eauto.
Qed.

(** X6: the first spec looks at [err] and [secrets], not at what the wait
    returned.  After any answer of the predicate: the spec fails at line
    39 exactly when the answer carried an error; it passes exactly when
    there was no error and exactly one secret, and then the answer was
    "done"; an answer "not ready yet" fails at line 40, and so does an
    answer "done" with two secrets or more. *)
Theorem secret_spec_verdict :
  forall (api : Script) (v : Vars),
    let answer := secretExists api v in
    let done := fst (fst answer) in
    let e := snd (fst answer) in
    let n := length (Items (fst (api (listCalls v)))) in
    (secretExpectations (snd answer) = FailAt 39 <-> e <> None)
    /\ (secretExpectations (snd answer) = Pass <-> e = None /\ n = 1%nat)
    /\ (secretExpectations (snd answer) = Pass -> done = true)
    /\ (done = false -> e = None -> secretExpectations (snd answer) = FailAt 40)
    /\ (done = true -> (2 <= n)%nat -> secretExpectations (snd answer) = FailAt 40).
Proof.
  intros api v. unfold secretExists, secretExpectations.
  destruct (api (listCalls v)) as [[items] [e|]]; simpl.
  - repeat split; try discriminate; try congruence. intros [? _]. discriminate.
  - destruct items as [|first [|second rest]]; simpl;
      repeat split; try discriminate; try congruence; try lia;
      try (intros [_ ?]; discriminate).
Qed.

(** X7: the second spec depends on the first through [secretName] and
    [err]: [certificateApplied] never writes [secretName] and overwrites
    [err] with the error it returns; after any of its answers the spec
    passes exactly when there was no error and the API server names exactly
    one certificate, that of the name the first spec stored. *)
Theorem apiserver_spec_verdict :
  forall (api : GetScript) (s : Shared),
    let answer := certificateApplied api s in
    let s' := snd answer in
    let server := fst (api (getCalls s)) in
    secretName (vars s') = secretName (vars s)
    /\ secrets (vars s') = secrets (vars s)
    /\ err (vars s') = snd (fst answer)
    /\ (fst (fst answer) = true <->
        snd (api (getCalls s)) = None /\ NamedCertificates server <> [])
    /\ (apiserverExpectations s' = Pass <->
        snd (api (getCalls s)) = None
        /\ exists certificate,
             NamedCertificates server = [certificate]
             /\ ServingCertificateName certificate = secretName (vars s)).
Proof.
  intros api s. unfold certificateApplied, apiserverExpectations.
  destruct (api (getCalls s)) as [[certificates] [e|]]; simpl.
  - repeat split; try discriminate; try congruence; intros [? _]; discriminate.
  - destruct certificates as [|certificate [|second rest]];
      simpl; repeat split; try discriminate; try congruence.
    + intros [_ ?]. congruence.
    + intros (_ & ? & ? & _). discriminate.
    + exists certificate. split; [reflexivity|].
      match goal with H : _ = Pass |- _ => revert H end.
      destruct (String.eqb_spec (ServingCertificateName certificate)
                  (secretName (vars s))); [intros _; assumption|discriminate].
    + intros (_ & c & [= <-] & ->). rewrite String.eqb_refl. reflexivity.
    + intros (_ & ? & ? & _). discriminate.
Qed.

End CertmanTheorems.

(* ===================================================================== *)
(** ** More on HasMatches, IsPassing and GetMetricByName                  *)
(* ===================================================================== *)
(** X8: whenever [HasMatches] returns, its count lies between 0 and the
    length of the data plus one. *)
Theorem HasMatches_bounds :
  forall (E : regexp.Engine) (m : LogMetric) (data : list byte) (count : Z),
    HasMatches E m data = Returns count ->
    0 <= count <= Z.of_nat (length data) + 1.
Proof.
  intros E m data count.
  destruct (regexp.MustCompile E (RegEx m)) as [re|] eqn:Hre.
  - rewrite (HasMatches_Returns m re data Hre). intros [= <-].
    pose proof (allMatches_length re data). lia.
  - unfold HasMatches. rewrite Hre. discriminate.
Qed.

Lemma HasMatches_bounds_witness :
  0 <= 2 <= Z.of_nat (length (String.list_byte_of_string "[error] one; [error] two")) + 1.
Proof.
  apply (HasMatches_bounds Scenarios.quoting
           (mkLogMetric "quoted" "\Q[error]" 9999 (-1))
           (String.list_byte_of_string "[error] one; [error] two") 2).
  reflexivity.
Defined.

(** X9: for a valid regexp, [HasMatches] returns 0 exactly when the
    regexp does not occur in the data.  For a pattern beyond the fragment
    the engine is asked to search as the package documents. *)
Theorem HasMatches_zero_iff_no_occurrence :
  forall (E : regexp.Engine) (m : LogMetric) (re : regexp.Regexp E)
         (data : list byte),
    regexp.MustCompile E (RegEx m) = Returns re ->
    (forall p, re = regexp.Beyond p -> Occurrences.Leftmost E) ->
    exists count,
      HasMatches E m data = Returns count
      /\ (count = 0 <-> forall i j, ~ Occurrences.occurs re data i j).
Proof.
  intros E m re data Hre L. eexists. split; [apply (HasMatches_Returns m re data Hre)|].
  rewrite <- (allMatches_nothing re data (doExecute_found re data L)
                (doExecute_nothing re data L)).
  destruct (regexp.allMatches re data _); simpl; split; (discriminate || lia || auto).
Qed.

Lemma HasMatches_zero_iff_no_occurrence_witness :
  exists count,
    HasMatches Scenarios.quoting (mkLogMetric "errors" "error" 9999 (-1))
      (String.list_byte_of_string "all is well") = Returns count
    /\ (count = 0 <->
        forall i j,
          ~ Occurrences.occurs (E := Scenarios.quoting)
              (regexp.Modelled
                 (syntax.OpConcat (syntax.OpLiteral "e")
                    (syntax.OpConcat (syntax.OpLiteral "r")
                       (syntax.OpConcat (syntax.OpLiteral "r")
                          (syntax.OpConcat (syntax.OpLiteral "o")
                             (syntax.OpLiteral "r"))))))
              (String.list_byte_of_string "all is well") i j).
Proof.
  apply (HasMatches_zero_iff_no_occurrence Scenarios.quoting
           (mkLogMetric "errors" "error" 9999 (-1)) _
           (String.list_byte_of_string "all is well"));
    [reflexivity|intros _ _; apply quoting_Leftmost].
Defined.

(** X10: a metric with a negative [LowThreshold] and a [HighThreshold]
    above the length of the data plus one passes on that data, whatever
    its regexp finds: so it is with the defaults -1 and 9999 on a log of
    less than 9998 bytes. *)
Theorem permissive_thresholds_pass :
  forall (E : regexp.Engine) (m : LogMetric) (data : list byte) (count : Z),
    LowThreshold m < 0 ->
    Z.of_nat (length data) + 1 < HighThreshold m ->
    HasMatches E m data = Returns count ->
    IsPassing m count = true.
Proof.
  intros E m data count Hlow Hhigh.
  destruct (regexp.MustCompile E (RegEx m)) as [re|] eqn:Hre.
  - rewrite (HasMatches_Returns m re data Hre). intros [= <-].
    pose proof (allMatches_length re data).
    unfold IsPassing. apply andb_true_iff. split; [apply Z.gtb_lt|apply Z.ltb_lt]; lia.
  - unfold HasMatches. rewrite Hre. discriminate.
Qed.

Lemma permissive_thresholds_pass_witness :
  IsPassing (mkLogMetric "errors" "error" 9999 (-1)) 2 = true.
Proof.
  apply (permissive_thresholds_pass Scenarios.quoting
           (mkLogMetric "errors" "error" 9999 (-1))
           (String.list_byte_of_string "error: one; error: two") 2);
    [reflexivity|simpl; lia|reflexivity].
Defined.

(** The zero-value metric has the empty regexp, which matches at every
    start of a rune and at the end of the data: once at least, and at
    every position of a text of ASCII bytes. *)
Lemma HasMatches_zeroLogMetric (E : regexp.Engine) (data : list byte) :
  HasMatches E zeroLogMetric data
  = Returns (Z.of_nat (length (Occurrences.starts data 0))).
Proof.
  rewrite (HasMatches_Returns zeroLogMetric (regexp.Modelled syntax.OpEmptyMatch)
             data eq_refl).
  rewrite (allMatches_delivers (regexp.Modelled syntax.OpEmptyMatch) data
             (doExecute_found _ data (Modelled_searches syntax.OpEmptyMatch))
             (doExecute_nothing _ data (Modelled_searches syntax.OpEmptyMatch))
             (map (fun i => (i, i)) (Occurrences.starts data 0))).
  - rewrite length_map. reflexivity.
  - intros i j. unfold Occurrences.occurs, Occurrences.matched.
    rewrite in_map_iff. split.
    + intros (s & [= <- <-] & Hs). split; [exact Hs|constructor].
    + intros [Hi Hm].
      assert (i = j) as <- by (inversion Hm; subst; reflexivity).
      exists i. split; [reflexivity|exact Hi].
  - apply starts_separated.
Qed.

(** X11: looking up a name that no metric has and counting with the
    metric returned never panics and never counts 0: the empty regexp of
    the zero-value metric matches between 1 and [len(data) + 1] times,
    exactly [len(data) + 1] times on ASCII data, and the count never
    passes [IsPassing]. *)
Theorem unknown_metric_counts_and_fails :
  forall (E : regexp.Engine) (metrics : LogMetrics) (name : string)
         (data : list byte),
    (forall m, In m metrics -> Name m <> name) ->
    exists m count,
      deref metrics (GetMetricByName metrics name) = Some m
      /\ HasMatches E m data = Returns count
      /\ 1 <= count <= Z.of_nat (length data) + 1
      /\ (Forall (fun c => utf8.byteZ c < utf8.RuneSelf) data ->
          count = Z.of_nat (length data) + 1)
      /\ IsPassing m count = false.
Proof.
  intros E metrics name data Hno.
  exists zeroLogMetric, (Z.of_nat (length (Occurrences.starts data 0))).
  unfold GetMetricByName. rewrite (GetMetricByName_loop_unknown _ _ _ Hno).
  split; [reflexivity|]. split; [apply HasMatches_zeroLogMetric|].
  pose proof (starts_nonempty data 0).
  destruct (starts_length data 0) as [Hlen|Hbad]; [|lia].
  split; [lia|]. split; [|apply zeroLogMetric_never_passes].
  intros Hascii. rewrite (starts_ascii data Hascii 0) by lia. lia.
Qed.

Lemma unknown_metric_counts_and_fails_witness :
  exists m count,
    deref [mkLogMetric "errors" "error" 9999 (-1)]
      (GetMetricByName [mkLogMetric "errors" "error" 9999 (-1)] "warnings") = Some m
    /\ HasMatches Scenarios.quoting m (String.list_byte_of_string "ok") = Returns count
    /\ 1 <= count <= 3
    /\ IsPassing m count = false.
Proof.
  destruct (unknown_metric_counts_and_fails Scenarios.quoting
              [mkLogMetric "errors" "error" 9999 (-1)] "warnings"
              (String.list_byte_of_string "ok"))
    as (m & count & Hm & Hcount & Hbounds & _ & Hfails).
  { intros m [<-|[]]. simpl. discriminate. }
  exists m, count. repeat split; assumption || apply Hbounds.
Defined.

(** X12: the pointer [GetMetricByName] returns can always be
    dereferenced, and the metric it leads to bears the name asked for
    exactly when some metric of the collection does or the name is empty:
    for the empty name a caller cannot tell a metric found from none. *)
Theorem GetMetricByName_name :
  forall (metrics : LogMetrics) (name : string),
    exists m,
      deref metrics (GetMetricByName metrics name) = Some m
      /\ (Name m = name <->
          (exists m', In m' metrics /\ Name m' = name) \/ name = EmptyString).
Proof.
  intros metrics name.
  destruct (decide (Exists (fun m' => Name m' = name) metrics)) as [Hsome|Hnone].
  - apply Exists_exists in Hsome.
    assert (exists m', In m' metrics /\ Name m' = name) as Hfound.
    { destruct Hsome as (x & Hx & Hn). exists x.
      split; [apply list_elem_of_In, Hx|exact Hn]. }
    clear Hsome. rename Hfound into Hsome.
    destruct (first_of_name metrics name Hsome) as (j & m & Hj & Hname & Hfirst).
    exists m. unfold GetMetricByName.
    rewrite (GetMetricByName_loop_first metrics 0 name j m Hj Hname Hfirst).
    split; [exact Hj|]. split; [intros _; left; exact Hsome|intros _; exact Hname].
  - assert (forall m', In m' metrics -> Name m' <> name) as Hno.
    { intros m' Hin Heq. apply Hnone, Exists_exists. exists m'.
      split; [apply list_elem_of_In, Hin|exact Heq]. }
    exists zeroLogMetric. unfold GetMetricByName.
    rewrite (GetMetricByName_loop_unknown _ _ _ Hno).
    split; [reflexivity|]. simpl. split.
    + intros <-. right. reflexivity.
    + intros [(m' & Hin & Heq)| ->]; [destruct (Hno m' Hin Heq)|reflexivity].
Qed.

(** X13: no two fields of the configuration are bound to the same
    environment variable; every field has a YAML key and no two fields of
    one struct have the same; every field bound to an environment variable
    names its section. *)
Theorem config_tags_distinct :
  NoDup ConfigTags.envVars
  /\ NoDup ConfigTags.yamlKeys
  /\ Forall (fun f => ConfigTags.yamlTag f <> None
                      /\ (ConfigTags.envTag f <> None -> ConfigTags.sectTag f <> None))
            ConfigTags.fields.
Proof.
  split; [|split].
  - apply (bool_decide_unpack _). vm_compute. exact I.
  - apply (bool_decide_unpack _). vm_compute. exact I.
  - apply (bool_decide_unpack _). vm_compute. exact I.
Qed.

